(** * bodhi-async-batch: a shallow embedding of [asyncBatch]

    The runner of [src/index.ts] (and its hand-written twin [src/index.js])
    is an [async] function: it runs on one thread and is interleaved with its
    tasks only at [await].  The embedding splits [processTask] at its single
    [await] and threads the mutable variables of the closure through an
    explicit [State].  Tasks are opaque to the runner, so a task is described
    by what the runner can observe of it: whether it throws before returning
    a promise, and otherwise when and how its promise settles.

    Assumptions of the model: every promise returned by a task settles, the
    progress callback returns normally, and [concurrency] is an integer (the
    source only evaluates [inProgress.size < concurrency]).  The main loop
    need not end, so it takes a number of iterations, [fuel]. *)

From Stdlib Require Import ZArith Lia.
From stdpp Require Import base decidable option list gmap strings pretty.

Set Default Proof Using "Type".

(** ** Values, errors and tasks *)

(** A JavaScript [Error] object, as far as the runner looks into it. *)
Record Error := mkError { message : string }.

(** A run-time value: the runner only ever asks [instanceof Error]. *)
Inductive value (T : Type) :=
| Plain (x : T)
| ErrorObj (e : Error).
Arguments Plain {T} x.
Arguments ErrorObj {T} e.

Definition instanceofError {T} (v : value T) : bool :=
  match v with ErrorObj _ => true | Plain _ => false end.

(** How the promise returned by a task settles. *)
Inductive settlement (T : Type) :=
| Resolve (v : value T)
| Reject (reason : value T).
Arguments Resolve {T} v.
Arguments Reject {T} reason.

(** A task either throws synchronously when called, or returns a promise
    that settles [delay] ticks after the start of its wave.  Promises of one
    wave with equal delays settle in the order in which they were created,
    as the microtask queue does for already settled promises. *)
Inductive Task (T : Type) :=
| Async (delay : nat) (outcome : settlement T)
| Throws (reason : value T).
Arguments Async {T} delay outcome.
Arguments Throws {T} reason.

(** What can be observed of a run, in the order in which it happens.  The
    events are recorded in [trace]; they do not influence the run. *)
Inductive Event :=
| Admit (taskIndex : nat)            (* inProgress.add(taskIndex) in the fill loop *)
| Dispatch (taskIndex : nat)         (* processTask passed its guard and runs the task *)
| Settle (taskIndex : nat)           (* the finally block of processTask *)
| Progress (completed total : nat).  (* onProgress(completed, total) *)

(** The progress callback is opaque: a call to it is the [Progress] event. *)
Inductive Callback := callback.

Module AsyncBatchOptions.
Record t := mk {
  concurrency : option Z;
  failFast : option bool;
  onProgress : option Callback
}.
End AsyncBatchOptions.

(** ** The mutable variables of one call *)

Record State (T : Type) := mkState {
  results : list (option (value T));   (* [None] is a hole of [new Array(total)] *)
  completed : nat;
  failed : bool;
  firstError : option Error;
  queue : list nat;
  inProgress : list nat;               (* a [Set], in insertion order *)
  processing : gset nat;
  trace : list Event
}.
Arguments mkState {T}.
Arguments results {T}.
Arguments completed {T}.
Arguments failed {T}.
Arguments firstError {T}.
Arguments queue {T}.
Arguments inProgress {T}.
Arguments processing {T}.
Arguments trace {T}.

Section Setters.
Context {T : Type}.
Definition set_results r (s : State T) : State T :=
  mkState r (completed s) (failed s) (firstError s) (queue s) (inProgress s) (processing s) (trace s).
Definition set_completed c (s : State T) : State T :=
  mkState (results s) c (failed s) (firstError s) (queue s) (inProgress s) (processing s) (trace s).
Definition set_failed f (s : State T) : State T :=
  mkState (results s) (completed s) f (firstError s) (queue s) (inProgress s) (processing s) (trace s).
Definition set_firstError e (s : State T) : State T :=
  mkState (results s) (completed s) (failed s) e (queue s) (inProgress s) (processing s) (trace s).
Definition set_queue q (s : State T) : State T :=
  mkState (results s) (completed s) (failed s) (firstError s) q (inProgress s) (processing s) (trace s).
Definition set_inProgress p (s : State T) : State T :=
  mkState (results s) (completed s) (failed s) (firstError s) (queue s) p (processing s) (trace s).
Definition set_processing p (s : State T) : State T :=
  mkState (results s) (completed s) (failed s) (firstError s) (queue s) (inProgress s) p (trace s).
Definition emit (e : Event) (s : State T) : State T :=
  mkState (results s) (completed s) (failed s) (firstError s) (queue s) (inProgress s) (processing s)
          (trace s ++ [e]).
End Setters.

(** ** JavaScript containers *)

(** [a[i] = v]: an in-range write replaces the slot, an out-of-range write
    grows the array, leaving holes in between. *)
Definition array_set {A} (i : nat) (v : A) (a : list (option A)) : list (option A) :=
  if decide (i < length a) then <[i := Some v]> a
  else a ++ replicate (i - length a) None ++ [Some v].

(** [Set.prototype.add] and [Set.prototype.delete] on an insertion-ordered set. *)
Definition set_add (i : nat) (l : list nat) : list nat :=
  if bool_decide (i ∈ l) then l else l ++ [i].
Definition set_delete (i : nat) (l : list nat) : list nat :=
  filter (λ j, j ≠ i) l.

(** [error instanceof Error ? error : new Error(String(error))] *)
Definition toError {T} (toString : T → string) (error : value T) : Error :=
  match error with
  | ErrorObj e => e
  | Plain x => mkError (toString x)
  end.

(** [Array.prototype.every] skips holes. *)
Definition every {A} (p : A → bool) (a : list (option A)) : bool :=
  forallb (λ slot, match slot with Some v => p v | None => true end) a.

(** [results.map(e => e.message).join(', ')]: [map] keeps holes, [join]
    prints a hole or [undefined] as the empty string. *)
Definition messages {T} (a : list (option (value T))) : list string :=
  map (λ slot, match slot with Some (ErrorObj e) => message e | _ => "" end) a.
Definition join (sep : string) (l : list string) : string := String.concat sep l.

(** How a call of [asyncBatch] ends.  The two [throw] statements are told
    apart; [OutOfFuel] means that the [while] loop is still running. *)
Inductive ThrowSite := ThrowFirstError | ThrowAllFailed.
Inductive Completion (T : Type) :=
| Returned (rs : list (option (value T)))
| Threw (site : ThrowSite) (e : Error)
| OutOfFuel.
Arguments Returned {T} rs.
Arguments Threw {T} site e.
Arguments OutOfFuel {T}.

(** A suspended [processTask]: its index, and when and how [await task()] ends. *)
Definition Suspended (T : Type) : Type := nat * (nat * settlement T).

(** The event loop resumes suspended calls by settle time, first come first
    served among equal times. *)
Fixpoint insert_by_delay {T} (p : Suspended T) (l : list (Suspended T)) : list (Suspended T) :=
  match l with
  | [] => [p]
  | q :: l' => if (p.2.1 <? q.2.1)%nat then p :: q :: l' else q :: insert_by_delay p l'
  end.
Definition settle_order {T} (pending : list (Suspended T)) : list (Suspended T) :=
  foldl (λ acc p, insert_by_delay p acc) [] pending.

(** JavaScript truthiness of an optional function: a function is truthy,
    [undefined] is not. *)
Definition truthy {A} (x : option A) : bool :=
  match x with Some _ => true | None => false end.

(** ** src/index.ts *)

Module TS.
Section asyncBatch.
Context {T : Type} (toString : T → string).
Variable tasks : list (option (Task T)).   (* [None]: a null or undefined entry *)
Variable options : AsyncBatchOptions.t.

(* const { concurrency = 5, failFast = false, onProgress = undefined } = options; *)
Definition concurrency : Z := default 5%Z (AsyncBatchOptions.concurrency options).
Definition failFast : bool := default false (AsyncBatchOptions.failFast options).
Definition onProgress : option Callback := AsyncBatchOptions.onProgress options.

Definition total : nat := length tasks.

Definition initial : State T :=
  {| results := replicate total None;
     completed := 0;
     failed := false;
     firstError := None;
     queue := imap (λ index _, index) tasks;
     inProgress := [];
     processing := ∅;
     trace := [] |}.

(* finally { inProgress.delete(taskIndex);
             if (!failed) { completed++; onProgress?.(completed, total); } } *)
Definition finally_block (taskIndex : nat) (s : State T) : State T :=
  let s := emit (Settle taskIndex) (set_inProgress (set_delete taskIndex (inProgress s)) s) in
  if failed s then s
  else
    let s := set_completed (S (completed s)) s in
    match onProgress with
    | Some _ => emit (Progress (completed s) total) s
    | None => s
    end.

(* catch (error) { if (failFast) { failed = true; firstError = ...; return; }
                   results[taskIndex] = ...; }   followed by finally *)
Definition catch_block (taskIndex : nat) (error : value T) (s : State T) : State T :=
  if failFast then
    finally_block taskIndex (set_firstError (Some (toError toString error)) (set_failed true s))
  else
    finally_block taskIndex
      (set_results (array_set taskIndex (ErrorObj (toError toString error)) (results s)) s).

Definition undefined_task (taskIndex : nat) : value T :=
  ErrorObj (mkError ("Task at index " +:+ pretty taskIndex +:+ " is undefined")).

(** [processTask] up to its [await]: the call either ends at once or is
    suspended on the promise of its task. *)
Definition processTask (taskIndex : nat) (s : State T) : State T * option (Suspended T) :=
  if failed s || bool_decide (taskIndex ∈ processing s) then (s, None)
  else
    let s := emit (Dispatch taskIndex) (set_processing ({[taskIndex]} ∪ processing s) s) in
    match tasks !! taskIndex with
    | Some (Some (Async delay outcome)) => (s, Some (taskIndex, (delay, outcome)))
    | Some (Some (Throws reason)) => (catch_block taskIndex reason s, None)
    | Some None | None => (catch_block taskIndex (undefined_task taskIndex) s, None)
    end.

(** [processTask] from its [await] on. *)
Definition resume (p : Suspended T) (s : State T) : State T :=
  match p.2.2 with
  | Resolve result =>
      finally_block p.1
        (if failed s then s else set_results (array_set p.1 result (results s)) s)
  | Reject error => catch_block p.1 error s
  end.

(* Array.from(inProgress).map(processTask) *)
Definition start_all (indices : list nat) (s : State T) : State T * list (Suspended T) :=
  foldl (λ acc taskIndex,
           let '(s', p) := processTask taskIndex acc.1 in
           (s', acc.2 ++ option_list p))
        (s, []) indices.

(* await Promise.all(...) *)
Definition await_all (s : State T) : State T :=
  let '(s', pending) := start_all (inProgress s) s in
  foldl (λ acc p, resume p acc) s' (settle_order pending).

(* while (inProgress.size < concurrency && queue.length > 0 && !failed) {
     const taskIndex = queue.shift()!; inProgress.add(taskIndex); } *)
Fixpoint fill (q : list nat) (s : State T) : State T :=
  match q with
  | [] => s
  | taskIndex :: q' =>
      if bool_decide (Z.of_nat (length (inProgress s)) < concurrency)%Z && negb (failed s) then
        fill q' (emit (Admit taskIndex)
                   (set_inProgress (set_add taskIndex (inProgress s)) (set_queue q' s)))
      else s
  end.

(* const allFailed = results.every(...); if (allFailed) throw new Error(...);
   return results as T[]; *)
Definition finish (s : State T) : Completion T * State T :=
  if every instanceofError (results s) then
    (Threw ThrowAllFailed
       (mkError ("All tasks failed to execute: " +:+ join ", " (messages (results s)))), s)
  else (Returned (results s), s).

(* while (queue.length > 0 && !failed) { ... } followed by the epilogue *)
Fixpoint main_loop (fuel : nat) (s : State T) : Completion T * State T :=
  match fuel with
  | O => (OutOfFuel, s)
  | S fuel' =>
      if bool_decide (0 < length (queue s)) && negb (failed s) then
        let s := fill (queue s) s in
        if bool_decide (0 < length (inProgress s)) then
          let s := await_all s in
          (* if (failed && firstError) throw firstError; *)
          match failed s, firstError s with
          | true, Some e => (Threw ThrowFirstError e, s)
          | _, _ => main_loop fuel' s
          end
        else main_loop fuel' s
      else finish s
  end.

Definition asyncBatch (fuel : nat) : Completion T * State T := main_loop fuel initial.
End asyncBatch.
End TS.

(** ** src/index.js *)

Module JS.
Section asyncBatch.
Context {T : Type} (toString : T → string).
Variable tasks : list (option (Task T)).
Variable options : AsyncBatchOptions.t.

(* const { concurrency = 5, failFast = false, onProgress = undefined } = options; *)
Definition concurrency : Z := default 5%Z (AsyncBatchOptions.concurrency options).
Definition failFast : bool := default false (AsyncBatchOptions.failFast options).
Definition onProgress : option Callback := AsyncBatchOptions.onProgress options.

Definition total : nat := length tasks.

Definition initial : State T :=
  {| results := replicate total None;
     completed := 0;
     failed := false;
     firstError := None;
     queue := imap (λ index _, index) tasks;
     inProgress := [];
     processing := ∅;
     trace := [] |}.

(* finally { inProgress.delete(taskIndex);
             if (!failed) { completed++; if (onProgress) onProgress(completed, total); } } *)
Definition finally_block (taskIndex : nat) (s : State T) : State T :=
  let s := emit (Settle taskIndex) (set_inProgress (set_delete taskIndex (inProgress s)) s) in
  if failed s then s
  else
    let s := set_completed (S (completed s)) s in
    if truthy onProgress then emit (Progress (completed s) total) s else s.

(* catch (error) { if (failFast) { failed = true; firstError = ...; return; }
                   results[taskIndex] = ...; }   followed by finally *)
Definition catch_block (taskIndex : nat) (error : value T) (s : State T) : State T :=
  if failFast then
    finally_block taskIndex (set_firstError (Some (toError toString error)) (set_failed true s))
  else
    finally_block taskIndex
      (set_results (array_set taskIndex (ErrorObj (toError toString error)) (results s)) s).

Definition undefined_task (taskIndex : nat) : value T :=
  ErrorObj (mkError ("Task at index " +:+ pretty taskIndex +:+ " is undefined")).

(** [processTask] up to its [await]: the call either ends at once or is
    suspended on the promise of its task. *)
Definition processTask (taskIndex : nat) (s : State T) : State T * option (Suspended T) :=
  if failed s || bool_decide (taskIndex ∈ processing s) then (s, None)
  else
    let s := emit (Dispatch taskIndex) (set_processing ({[taskIndex]} ∪ processing s) s) in
    match tasks !! taskIndex with
    | Some (Some (Async delay outcome)) => (s, Some (taskIndex, (delay, outcome)))
    | Some (Some (Throws reason)) => (catch_block taskIndex reason s, None)
    | Some None | None => (catch_block taskIndex (undefined_task taskIndex) s, None)
    end.

(** [processTask] from its [await] on. *)
Definition resume (p : Suspended T) (s : State T) : State T :=
  match p.2.2 with
  | Resolve result =>
      finally_block p.1
        (if failed s then s else set_results (array_set p.1 result (results s)) s)
  | Reject error => catch_block p.1 error s
  end.

(* Array.from(inProgress).map(processTask) *)
Definition start_all (indices : list nat) (s : State T) : State T * list (Suspended T) :=
  foldl (λ acc taskIndex,
           let '(s', p) := processTask taskIndex acc.1 in
           (s', acc.2 ++ option_list p))
        (s, []) indices.

(* await Promise.all(...) *)
Definition await_all (s : State T) : State T :=
  let '(s', pending) := start_all (inProgress s) s in
  foldl (λ acc p, resume p acc) s' (settle_order pending).

(* while (inProgress.size < concurrency && queue.length > 0 && !failed) {
     const taskIndex = queue.shift(); inProgress.add(taskIndex); } *)
Fixpoint fill (q : list nat) (s : State T) : State T :=
  match q with
  | [] => s
  | taskIndex :: q' =>
      if bool_decide (Z.of_nat (length (inProgress s)) < concurrency)%Z && negb (failed s) then
        fill q' (emit (Admit taskIndex)
                   (set_inProgress (set_add taskIndex (inProgress s)) (set_queue q' s)))
      else s
  end.

(* const allFailed = results.every(...); if (allFailed) throw new Error(...);
   return results; *)
Definition finish (s : State T) : Completion T * State T :=
  if every instanceofError (results s) then
    (Threw ThrowAllFailed
       (mkError ("All tasks failed to execute: " +:+ join ", " (messages (results s)))), s)
  else (Returned (results s), s).

(* while (queue.length > 0 && !failed) { ... } followed by the epilogue *)
Fixpoint main_loop (fuel : nat) (s : State T) : Completion T * State T :=
  match fuel with
  | O => (OutOfFuel, s)
  | S fuel' =>
      if bool_decide (0 < length (queue s)) && negb (failed s) then
        let s := fill (queue s) s in
        if bool_decide (0 < length (inProgress s)) then
          let s := await_all s in
          (* if (failed && firstError) throw firstError; *)
          match failed s, firstError s with
          | true, Some e => (Threw ThrowFirstError e, s)
          | _, _ => main_loop fuel' s
          end
        else main_loop fuel' s
      else finish s
  end.

Definition asyncBatch (fuel : nat) : Completion T * State T := main_loop fuel initial.
End asyncBatch.
End JS.

(** ** Vocabulary of the statements *)

Section Vocabulary.
Context {T : Type} (toString : T → string) (tasks : list (option (Task T))).

(** How task [i] ends, as [processTask] sees it: a synchronous throw and
    a missing task reach the same [catch] as a rejected promise. *)
Definition outcome (i : nat) : settlement T :=
  match tasks !! i with
  | Some (Some (Async _ o)) => o
  | Some (Some (Throws reason)) => Reject reason
  | Some None | None => Reject (TS.undefined_task i)
  end.

Definition fails (i : nat) : Prop := ∃ reason, outcome i = Reject reason.

(** What a run that goes on after errors stores for task [i]. *)
Definition recorded (i : nat) : value T :=
  match outcome i with
  | Resolve v => v
  | Reject reason => ErrorObj (toError toString reason)
  end.
End Vocabulary.

(** Projections of a trace. *)
Definition dispatches (tr : list Event) : list nat :=
  omap (λ e, match e with Dispatch i => Some i | _ => None end) tr.
Definition settles (tr : list Event) : list nat :=
  omap (λ e, match e with Settle i => Some i | _ => None end) tr.
Definition progress_calls (tr : list Event) : list (nat * nat) :=
  omap (λ e, match e with Progress c t => Some (c, t) | _ => None end) tr.

Definition is_settle (e : Event) : Prop := ∃ i, e = Settle i.

(** The number of tasks that were dispatched and whose [processTask] has
    not reached its [finally] block. *)
Definition executing (tr : list Event) : Z :=
  (Z.of_nat (length (dispatches tr)) - Z.of_nat (length (settles tr)))%Z.

(** A property of every instant of a run. *)
Definition always (P : list Event → Prop) (tr : list Event) : Prop :=
  ∀ p, p `prefix_of` tr → P p.

(** Some concrete tasks over integers. *)
Definition resolves (delay : nat) (x : Z) : option (Task Z) :=
  Some (Async delay (Resolve (Plain x))).
Definition rejects (delay : nat) (msg : string) : option (Task Z) :=
  Some (Async delay (Reject (ErrorObj (mkError msg)))).
Definition resolves_error (delay : nat) (msg : string) : option (Task Z) :=
  Some (Async delay (Resolve (ErrorObj (mkError msg)))).
Definition showZ (x : Z) : string := pretty x.
Definition no_options : AsyncBatchOptions.t := AsyncBatchOptions.mk None None None.

(** ** Vocabulary of further properties *)

Section Outcomes.
Context {T : Type} (toString : T → string) (tasks : list (option (Task T))).

(** The error that the [catch] block makes of the failure of task [i]. *)
Definition task_error (i : nat) : option Error :=
  match outcome tasks i with
  | Reject reason => Some (toError toString reason)
  | Resolve _ => None
  end.

(** Task [i] fails before [processTask] reaches its [await]: the task
    throws when called, or there is no task at this index. *)
Definition fails_synchronously (i : nat) : Prop :=
  ∀ d o, tasks !! i ≠ Some (Some (Async d o)).

(** The result array once every task has settled without an abort. *)
Definition settled_results : list (option (value T)) :=
  (λ i, Some (recorded toString tasks i)) <$> seq 0 (length tasks).
End Outcomes.

(** The epilogue of [asyncBatch], as a function of the result array. *)
Definition epilogue {T} (rs : list (option (value T))) : Completion T :=
  if every instanceofError rs then
    Threw ThrowAllFailed
      (mkError ("All tasks failed to execute: " +:+ join ", " (messages rs)))
  else Returned rs.

(** ** The invariant of a run *)

Section Invariant.
Context {T : Type} (toString : T → string).
Variable tasks : list (option (Task T)).
Variable options : AsyncBatchOptions.t.

Local Abbreviation concurrency := (TS.concurrency options).
Local Abbreviation failFast := (TS.failFast options).
Local Abbreviation onProgress := (TS.onProgress options).
Local Abbreviation total := (TS.total tasks).
Local Abbreviation fails := (fails tasks).
Local Abbreviation recorded := (recorded toString tasks).
Local Abbreviation limit := (Z.to_nat concurrency).

(** The instant properties of a trace that the invariant carries. *)
Definition within_limit (p : list Event) : Prop :=
  length (settles p) ≤ length (dispatches p) ≤ length (settles p) + limit.
Definition admits_when_idle (p : list Event) : Prop :=
  ∀ p' i, p = p' ++ [Admit i] → length (dispatches p') = length (settles p').
Definition notifies_after_settle (p : list Event) : Prop :=
  ∀ p' i e, p = p' ++ [Settle i; e] → ∃ c, e = Progress c total.
Definition quiet_after_failure (p : list Event) : Prop :=
  ∀ p' e, p = p' ++ [e] → (∃ i, Settle i ∈ p' ∧ fails i) → is_settle e.

(** The last event is not a settlement that still waits for its callback. *)
Definition no_pending_notice (tr : list Event) : Prop :=
  ∀ p' i, tr ≠ p' ++ [Settle i].
(** No task has failed so far. *)
Definition no_failure_yet (tr : list Event) : Prop :=
  ∀ i, Settle i ∈ tr → ¬ fails i.

(** [k] tasks have been admitted, [processTask] has been called for the
    first [n] of them, and the calls for [pend] are suspended. *)
Record inv (k n : nat) (pend : list nat) (s : State T) : Prop := {
  inv_len : length (results s) = total;
  inv_k : n ≤ k ≤ total;
  inv_queue : queue s = seq k (total - k);
  inv_pend : NoDup pend ∧ ∀ i, i ∈ pend → i < n;
  inv_room : (k - n) + length pend ≤ limit;
  inv_proc : ∀ i, i ∈ processing s → i < n;
  inv_inprog : failed s = false → ∀ i, i ∈ inProgress s ↔ (n ≤ i < k ∨ i ∈ pend);
  inv_res : failed s = false → ∀ i, i < total →
    results s !! i =
      Some (if bool_decide (i < n ∧ i ∉ pend) then Some (recorded i) else None);
  inv_cnt : failed s = false → completed s + length pend = n;
  inv_ff : failFast = false → failed s = false;
  inv_fe : failed s = true → is_Some (firstError s);
  inv_progress :
    progress_calls (trace s) =
      if onProgress is Some _ then (λ c, (c, total)) <$> seq 1 (completed s) else [];
  inv_disp : ∃ d, dispatches (trace s) = seq 0 d ∧ d ≤ n ∧ (failed s = false → d = n);
  inv_exec : dispatches (trace s) ≡ₚ settles (trace s) ++ pend;
  inv_limit : always within_limit (trace s);
  inv_admit : always admits_when_idle (trace s);
  inv_notify : failFast = false → is_Some onProgress →
    always notifies_after_settle (trace s) ∧ no_pending_notice (trace s);
  inv_quiet : failFast = true →
    always quiet_after_failure (trace s) ∧ (failed s = false → no_failure_yet (trace s))
}.
End Invariant.

(** * Proofs *)

(** ** The two implementations *)

Section Twins.
Context {T : Type} (toString : T → string).
Variable tasks : list (option (Task T)).
Variable options : AsyncBatchOptions.t.

Lemma js_finally_block i s :
  JS.finally_block tasks options i s = TS.finally_block tasks options i s.
Proof.
  unfold JS.finally_block, TS.finally_block, JS.onProgress, TS.onProgress.
  destruct (AsyncBatchOptions.onProgress options); reflexivity.
Qed.

Lemma js_catch_block i e s :
  JS.catch_block toString tasks options i e s = TS.catch_block toString tasks options i e s.
Proof. unfold JS.catch_block, TS.catch_block. rewrite !js_finally_block. reflexivity. Qed.

Lemma js_processTask i s :
  JS.processTask toString tasks options i s = TS.processTask toString tasks options i s.
Proof.
  unfold JS.processTask, TS.processTask.
  destruct (failed s || _); [reflexivity|].
  destruct (tasks !! i) as [[[]|]|]; rewrite ?js_catch_block; reflexivity.
Qed.

Lemma js_resume p s :
  JS.resume toString tasks options p s = TS.resume toString tasks options p s.
Proof.
  unfold JS.resume, TS.resume.
  destruct (p.2.2); rewrite ?js_catch_block, ?js_finally_block; reflexivity.
Qed.

Lemma js_start_all l s :
  JS.start_all toString tasks options l s = TS.start_all toString tasks options l s.
Proof.
  unfold JS.start_all, TS.start_all. generalize (s, @nil (Suspended T)).
  induction l as [|i l IH]; intros acc; simpl; [reflexivity|].
  rewrite js_processTask. apply IH.
Qed.

Lemma js_await_all s :
  JS.await_all toString tasks options s = TS.await_all toString tasks options s.
Proof.
  unfold JS.await_all, TS.await_all. rewrite js_start_all.
  destruct (TS.start_all _ _ _ _ _) as [s' pending].
  generalize (settle_order pending). intros l. revert s'.
  induction l as [|p l IH]; intros s'; simpl; [reflexivity|].
  rewrite js_resume. apply IH.
Qed.

Lemma js_fill q (s : State T) : JS.fill options q s = TS.fill options q s.
Proof.
  revert s. induction q as [|i q IH]; intros s; simpl; [reflexivity|].
  unfold JS.concurrency, TS.concurrency. rewrite IH. reflexivity.
Qed.

Lemma js_main_loop fuel s :
  JS.main_loop toString tasks options fuel s = TS.main_loop toString tasks options fuel s.
Proof.
  revert s. induction fuel as [|fuel IH]; intros s; simpl; [reflexivity|].
  rewrite js_fill. destruct (_ && _); [|reflexivity].
  destruct (bool_decide _); [|apply IH].
  rewrite js_await_all.
  generalize (TS.await_all toString tasks options (TS.fill options (queue s) s)).
  intros s'. destruct (failed s'), (firstError s'); try apply IH. reflexivity.
Qed.
End Twins.

(** C9: index.js computes the same function as index.ts: for all tasks,
    options and any number of loop iterations, both end the same way (same
    result list or same error) after the same observable events. *)
Theorem js_matches_ts {T} (toString : T → string) tasks options fuel :
  JS.asyncBatch toString tasks options fuel = TS.asyncBatch toString tasks options fuel.
Proof. unfold JS.asyncBatch, TS.asyncBatch. apply js_main_loop. Qed.

(** ** Containers and traces *)

Lemma array_set_length {A} i (v : A) a : i < length a → length (array_set i v a) = length a.
Proof. intros Hi. unfold array_set. rewrite decide_True by done. apply length_insert. Qed.

Lemma array_set_lookup {A} i j (v : A) a :
  i < length a →
  array_set i v a !! j = if decide (j = i) then Some (Some v) else a !! j.
Proof.
  intros Hi. unfold array_set. rewrite decide_True by done.
  destruct (decide (j = i)) as [->|Hne].
  - by apply list_lookup_insert_eq.
  - by apply list_lookup_insert_ne.
Qed.

Lemma elem_of_set_delete i j l : j ∈ set_delete i l ↔ j ∈ l ∧ j ≠ i.
Proof. unfold set_delete. rewrite list_elem_of_filter. tauto. Qed.

Lemma set_add_fresh i l : i ∉ l → set_add i l = l ++ [i].
Proof. intros Hi. unfold set_add. by rewrite bool_decide_false. Qed.

Lemma queue_indices {A} (l : list A) : imap (λ index _, index) l = seq 0 (length l).
Proof. etrans; [apply (imap_seq_0 l id)|apply list_fmap_id]. Qed.

Lemma insert_by_delay_perm {T} (p : Suspended T) l : insert_by_delay p l ≡ₚ p :: l.
Proof.
  induction l as [|q l IH]; simpl; [done|].
  destruct (_ <? _)%nat; [done|]. rewrite IH. apply Permutation_swap.
Qed.

Lemma settle_order_perm {T} (pending : list (Suspended T)) : settle_order pending ≡ₚ pending.
Proof.
  unfold settle_order. rewrite <- (app_nil_l pending) at 2.
  generalize (@nil (Suspended T)). induction pending as [|p l IH]; intros acc; simpl.
  - by rewrite app_nil_r.
  - rewrite IH, insert_by_delay_perm. simpl. apply Permutation_middle.
Qed.

Lemma always_nil (P : list Event → Prop) : P [] → always P [].
Proof. intros HP p Hp. by apply prefix_nil_inv in Hp as ->. Qed.

Lemma prefix_snoc_cases {A} (p l : list A) x :
  p `prefix_of` l ++ [x] → p `prefix_of` l ∨ p = l ++ [x].
Proof.
  intros [k Hk]. destruct k as [|y k _] using rev_ind.
  - right. by rewrite app_nil_r in Hk.
  - left. rewrite app_assoc in Hk. apply app_inj_tail in Hk as [-> _]. by exists k.
Qed.

Lemma always_snoc (P : list Event → Prop) tr e :
  always P tr → P (tr ++ [e]) → always P (tr ++ [e]).
Proof. intros Htr He p Hp. apply prefix_snoc_cases in Hp as [Hp| ->]; auto. Qed.

Lemma always_here (P : list Event → Prop) tr : always P tr → P tr.
Proof. intros H. by apply H. Qed.

Lemma dispatches_snoc tr e :
  dispatches (tr ++ [e]) = dispatches tr ++ match e with Dispatch i => [i] | _ => [] end.
Proof. unfold dispatches. rewrite omap_app. by destruct e. Qed.
Lemma settles_snoc tr e :
  settles (tr ++ [e]) = settles tr ++ match e with Settle i => [i] | _ => [] end.
Proof. unfold settles. rewrite omap_app. by destruct e. Qed.
Lemma progress_calls_snoc tr e :
  progress_calls (tr ++ [e]) =
  progress_calls tr ++ match e with Progress c t => [(c, t)] | _ => [] end.
Proof. unfold progress_calls. rewrite omap_app. by destruct e. Qed.

Create Rewrite HintDb trace.
#[global] Hint Rewrite dispatches_snoc settles_snoc progress_calls_snoc : trace.
#[global] Hint Rewrite @app_nil_r @length_app : trace.

(** Pushes the projections of a trace through the events appended to it. *)
Ltac push_events := repeat (progress (autorewrite with trace; simpl)).

Lemma snoc_ne_snoc {A} (l l' : list A) x y : x ≠ y → l ++ [x] ≠ l' ++ [y].
Proof. intros Hne [_ ?]%app_inj_tail. done. Qed.

Lemma snoc2_inj {A} (l l' : list A) x y x' y' :
  l ++ [x; y] = l' ++ [x'; y'] → l = l' ∧ x = x' ∧ y = y'.
Proof.
  change (l ++ [x; y]) with (l ++ [x] ++ [y]).
  change (l' ++ [x'; y']) with (l' ++ [x'] ++ [y']).
  rewrite !app_assoc. intros [[? ?]%app_inj_tail ?]%app_inj_tail. done.
Qed.

Lemma pending_count (d st pend : list nat) :
  d ≡ₚ st ++ pend → length d = length st + length pend.
Proof. intros ->. apply length_app. Qed.

(** ** Outcomes *)

Lemma recorded_resolve {T} (toString : T → string) tasks i v :
  outcome tasks i = Resolve v → recorded toString tasks i = v.
Proof. unfold recorded. by intros ->. Qed.

Lemma recorded_reject {T} (toString : T → string) tasks i reason :
  outcome tasks i = Reject reason →
  recorded toString tasks i = ErrorObj (toError toString reason).
Proof. unfold recorded. by intros ->. Qed.

Lemma outcome_async {T} (tasks : list (option (Task T))) i d o :
  tasks !! i = Some (Some (Async d o)) → outcome tasks i = o.
Proof. unfold outcome. by intros ->. Qed.

Lemma resolve_not_fails {T} (tasks : list (option (Task T))) i v :
  outcome tasks i = Resolve v → ¬ fails tasks i.
Proof. intros Ho [r Hr]. congruence. Qed.

(** ** The steps of a run preserve the invariant *)

Section Run.
Context {T : Type} (toString : T → string).
Variable tasks : list (option (Task T)).
Variable options : AsyncBatchOptions.t.

Local Abbreviation concurrency := (TS.concurrency options).
Local Abbreviation failFast := (TS.failFast options).
Local Abbreviation onProgress := (TS.onProgress options).
Local Abbreviation total := (TS.total tasks).
Local Abbreviation initial := (TS.initial tasks).
Local Abbreviation finally_block := (TS.finally_block tasks options).
Local Abbreviation catch_block := (TS.catch_block toString tasks options).
Local Abbreviation processTask := (TS.processTask toString tasks options).
Local Abbreviation resume := (TS.resume toString tasks options).
Local Abbreviation start_all := (TS.start_all toString tasks options).
Local Abbreviation await_all := (TS.await_all toString tasks options).
Local Abbreviation fill := (TS.fill options).
Local Abbreviation finish := (TS.finish (T:=T)).
Local Abbreviation main_loop := (TS.main_loop toString tasks options).
Local Abbreviation asyncBatch := (TS.asyncBatch toString tasks options).
Local Abbreviation outcome := (outcome tasks).
Local Abbreviation fails := (fails tasks).
Local Abbreviation recorded := (recorded toString tasks).
Local Abbreviation limit := (Z.to_nat concurrency).
Local Abbreviation within_limit := (within_limit options).
Local Abbreviation notifies_after_settle := (notifies_after_settle tasks).
Local Abbreviation quiet_after_failure := (quiet_after_failure tasks).
Local Abbreviation no_failure_yet := (no_failure_yet tasks).
Local Abbreviation inv := (inv toString tasks options).

Lemma inv_initial : inv 0 0 [] initial.
Proof.
  constructor; simpl.
  - apply length_replicate.
  - lia.
  - rewrite queue_indices. f_equal. unfold TS.total. lia.
  - split; [constructor|]. intros i Hi. by apply elem_of_nil in Hi.
  - lia.
  - intros i Hi. set_solver.
  - intros _ i. rewrite elem_of_nil. split; [done|].
    intros [?|Hi]; [lia|done].
  - intros _ i Hi. by rewrite lookup_replicate_2.
  - done.
  - done.
  - done.
  - by destruct onProgress.
  - exists 0. done.
  - done.
  - apply always_nil. unfold within_limit. simpl. lia.
  - apply always_nil. intros p' i Hp. by destruct p'.
  - intros _ _. split.
    + apply always_nil. intros p' i e Hp. by destruct p'.
    + intros p' i Hp. by destruct p'.
  - intros _. split.
    + apply always_nil. intros p' e Hp. by destruct p'.
    + intros _ i Hi. by apply elem_of_nil in Hi.
Qed.

Lemma inv_perm k n pend pend' s : pend ≡ₚ pend' → inv k n pend s → inv k n pend' s.
Proof.
  intros Hp [].
  assert (∀ i, i ∈ pend ↔ i ∈ pend') as Hin by (intros i; by rewrite Hp).
  constructor; try done.
  - rewrite <- Hp. destruct inv_pend0 as [? Hlt]. split; [done|].
    intros i Hi. apply Hlt. by apply Hin.
  - by rewrite <- Hp.
  - intros Hf i. rewrite <- Hin. by apply inv_inprog0.
  - intros Hf i Hi. rewrite (inv_res0 Hf i Hi).
    rewrite (bool_decide_ext (i < n ∧ i ∉ pend) (i < n ∧ i ∉ pend')); [done|].
    by rewrite Hin.
  - by rewrite <- Hp.
  - by rewrite <- Hp.
Qed.
(** *** Appending an event to a trace *)

Lemma within_limit_snoc tr e m :
  always within_limit tr → length (dispatches tr) = length (settles tr) + m →
  match e with Dispatch _ => S m ≤ limit | Settle _ => 0 < m | _ => True end →
  always within_limit (tr ++ [e]).
Proof.
  intros Ha Hm He. apply always_snoc; [done|]. apply always_here in Ha.
  unfold within_limit in *. destruct e; push_events; lia.
Qed.

Lemma admits_when_idle_snoc tr e :
  always admits_when_idle tr →
  (∀ i, e = Admit i → length (dispatches tr) = length (settles tr)) →
  always admits_when_idle (tr ++ [e]).
Proof.
  intros Ha He. apply always_snoc; [done|]. intros p' i [<- ->]%app_inj_tail. by eapply He.
Qed.

Lemma notifies_snoc tr e :
  always notifies_after_settle tr → no_pending_notice tr → (∀ i, e ≠ Settle i) →
  always notifies_after_settle (tr ++ [e]) ∧ no_pending_notice (tr ++ [e]).
Proof.
  intros Ha Hne He. split.
  - apply always_snoc; [done|]. intros p' i e' Hp.
    change (p' ++ [Settle i; e']) with (p' ++ [Settle i] ++ [e']) in Hp.
    rewrite app_assoc in Hp. apply app_inj_tail in Hp as [Hp _]. by apply Hne in Hp.
  - intros p' i. apply snoc_ne_snoc, He.
Qed.

Lemma notifies_snoc_settle tr i c :
  always notifies_after_settle tr → no_pending_notice tr →
  always notifies_after_settle ((tr ++ [Settle i]) ++ [Progress c total]) ∧
  no_pending_notice ((tr ++ [Settle i]) ++ [Progress c total]).
Proof.
  intros Ha Hne. split.
  - apply always_snoc; [apply always_snoc; [done|]|].
    + intros p' j e Hp.
      change (p' ++ [Settle j; e]) with (p' ++ [Settle j] ++ [e]) in Hp.
      rewrite app_assoc in Hp. apply app_inj_tail in Hp as [Hp _]. by apply Hne in Hp.
    + intros p' j e Hp. rewrite <- app_assoc in Hp. apply snoc2_inj in Hp as (_ & _ & <-).
      by exists c.
  - intros p' j. by apply snoc_ne_snoc.
Qed.

Lemma quiet_snoc tr e :
  always quiet_after_failure tr → ((∃ i, Settle i ∈ tr ∧ fails i) → is_settle e) →
  always quiet_after_failure (tr ++ [e]).
Proof.
  intros Ha He. apply always_snoc; [done|]. by intros p' e' [<- <-]%app_inj_tail.
Qed.

Lemma quiet_snoc_clean tr e :
  always quiet_after_failure tr → no_failure_yet tr → always quiet_after_failure (tr ++ [e]).
Proof. intros Ha Hno. apply quiet_snoc; [done|]. intros (i & Hi & Hfi). by destruct (Hno i Hi). Qed.

Lemma quiet_snoc_settle tr i :
  always quiet_after_failure tr → always quiet_after_failure (tr ++ [Settle i]).
Proof. intros Ha. apply quiet_snoc; [done|]. intros _. by exists i. Qed.

Lemma no_failure_yet_snoc tr e :
  no_failure_yet tr → (∀ i, e = Settle i → ¬ fails i) → no_failure_yet (tr ++ [e]).
Proof.
  intros Hno He i [Hi|Hi]%elem_of_app; [by apply Hno|].
  apply list_elem_of_singleton in Hi. by apply He.
Qed.

(** *** The atomic steps of a run preserve the invariant *)

(** [processTask] returns at its guard after an abort. *)
Lemma skip_inv k n pend s :
  inv k n pend s → failed s = true → n < k → inv k (S n) pend s.
Proof.
  intros [] Hf Hn. constructor; try done; try (intros; congruence).
  - lia.
  - destruct inv_pend0 as [? Hlt]. split; [done|]. intros i Hi. specialize (Hlt i Hi). lia.
  - lia.
  - intros i Hi. specialize (inv_proc0 i Hi). lia.
  - destruct inv_disp0 as (d & ? & ? & ?). exists d. split_and!; [done|lia|congruence].
Qed.

(** [processTask] passes its guard: [processing.add(taskIndex)]. *)
Lemma dispatch_inv k n pend s :
  inv k n pend s → failed s = false → n < k →
  inv k (S n) (pend ++ [n]) (emit (Dispatch n) (set_processing ({[n]} ∪ processing s) s)).
Proof.
  intros [] Hf Hn. destruct inv_pend0 as [Hnd Hlt].
  assert (n ∉ pend) as Hnp by (intros Hin; specialize (Hlt n Hin); lia).
  pose proof (pending_count _ _ _ inv_exec0) as Hcount.
  constructor; simpl; try done.
  - lia.
  - split.
    + apply NoDup_app. split_and!; [done| |apply NoDup_singleton].
      by intros i Hi ->%list_elem_of_singleton.
    + intros i [Hi | ->%list_elem_of_singleton]%elem_of_app; [specialize (Hlt i Hi)|]; lia.
  - rewrite length_app. simpl. lia.
  - intros i [->%elem_of_singleton|Hi]%elem_of_union; [lia|].
    specialize (inv_proc0 i Hi). lia.
  - intros _ i. rewrite (inv_inprog0 Hf i), elem_of_app, list_elem_of_singleton.
    destruct (decide (i = n)); [split; [tauto|lia]|]. split; (intros [?|?]; [left; lia|tauto]).
  - intros _ i Hi. rewrite (inv_res0 Hf i Hi).
    rewrite (bool_decide_ext (i < n ∧ i ∉ pend) (i < S n ∧ i ∉ pend ++ [n])); [done|].
    rewrite elem_of_app, list_elem_of_singleton. split; [|intros [? ?]; split; [lia|tauto]].
    intros [? ?]. split; [lia|]. intros [?| ->]; [done|lia].
  - intros _. rewrite length_app. simpl. specialize (inv_cnt0 Hf). lia.
  - by push_events.
  - destruct inv_disp0 as (d & Hd & ? & Hdn). specialize (Hdn Hf) as ->.
    exists (S n). rewrite dispatches_snoc, Hd, seq_S. done.
  - push_events. by rewrite inv_exec0, app_assoc.
  - apply (within_limit_snoc _ _ (length pend)); [done|done|lia].
  - by apply admits_when_idle_snoc.
  - intros Hff Hop. destruct (inv_notify0 Hff Hop). by apply notifies_snoc.
  - intros Hff. destruct (inv_quiet0 Hff) as [Ha Hno]. split; [apply quiet_snoc_clean; auto|].
    intros _. apply no_failure_yet_snoc; auto. done.
Qed.

(** One iteration of the fill loop: [queue.shift()] and [inProgress.add]. *)
Lemma admit_inv k n s :
  inv k n [] s → failed s = false → k < total → k - n < limit →
  inv (S k) n []
    (emit (Admit k)
       (set_inProgress (inProgress s ++ [k]) (set_queue (seq (S k) (total - S k)) s))).
Proof.
  intros [] Hf Hk Hroom. pose proof (pending_count _ _ _ inv_exec0) as Hcount.
  constructor; simpl; try done.
  - lia.
  - lia.
  - intros _ i. rewrite elem_of_app, list_elem_of_singleton, (inv_inprog0 Hf i).
    rewrite !elem_of_nil. lia.
  - by push_events.
  - by push_events.
  - push_events. by rewrite inv_exec0, app_nil_r.
  - by apply (within_limit_snoc _ _ 0).
  - apply admits_when_idle_snoc; [done|]. intros _ _. simpl in Hcount. lia.
  - intros Hff Hop. destruct (inv_notify0 Hff Hop). by apply notifies_snoc.
  - intros Hff. destruct (inv_quiet0 Hff) as [Ha Hno]. split; [apply quiet_snoc_clean; auto|].
    intros _. apply no_failure_yet_snoc; auto. done.
Qed.

Lemma finally_block_failed i s :
  failed s = true →
  finally_block i s = emit (Settle i) (set_inProgress (set_delete i (inProgress s)) s).
Proof. intros Hf. unfold TS.finally_block. simpl. by rewrite Hf. Qed.

Lemma finally_block_ok i s :
  failed s = false →
  finally_block i s =
    let s' := set_completed (S (completed s))
                (emit (Settle i) (set_inProgress (set_delete i (inProgress s)) s)) in
    match onProgress with
    | Some _ => emit (Progress (S (completed s)) total) s'
    | None => s'
    end.
Proof. intros Hf. unfold TS.finally_block. simpl. by rewrite Hf. Qed.

(** A task settles and its value or error is stored. *)
Lemma record_inv k n i pend' v s :
  inv k n (i :: pend') s → failed s = false → recorded i = v →
  (failFast = true → ¬ fails i) →
  inv k n pend' (finally_block i (set_results (array_set i v (results s)) s)).
Proof.
  intros [] Hf Hv Hok. destruct inv_pend0 as [Hnd Hlt].
  apply NoDup_cons in Hnd as [Hi Hnd].
  assert (i < n) as Hin by (apply Hlt; left).
  assert (i < length (results s)) as Hlen by lia.
  pose proof (pending_count _ _ _ inv_exec0) as Hcount. simpl in inv_room0, Hcount.
  assert (always within_limit (trace s ++ [Settle i])) as Hlim
    by (apply (within_limit_snoc _ _ (S (length pend'))); [done|done|lia]).
  assert (always admits_when_idle (trace s ++ [Settle i])) as Hadm
    by (by apply admits_when_idle_snoc).
  assert (dispatches (trace s) ≡ₚ (settles (trace s) ++ [i]) ++ pend') as Hexec
    by (by rewrite inv_exec0, <- app_assoc).
  rewrite finally_block_ok by done.
  constructor; simpl.
  - destruct onProgress; simpl; by rewrite array_set_length.
  - done.
  - by destruct onProgress.
  - split; [done|]. intros j Hj. apply Hlt. by right.
  - lia.
  - by destruct onProgress.
  - intros _ j.
    assert (j ∈ set_delete i (inProgress s) ↔ n ≤ j < k ∨ j ∈ pend') as Hgoal.
    { rewrite elem_of_set_delete, (inv_inprog0 Hf j), elem_of_cons.
      split; [intros [[?|[?|?]] ?]; tauto|].
      intros [?|?]; [split; [tauto|lia]|]. split; [tauto|]. by intros ->. }
    by destruct onProgress.
  - intros _ j Hj.
    assert (array_set i v (results s) !! j =
            Some (if bool_decide (j < n ∧ j ∉ pend') then Some (recorded j) else None)) as Hgoal.
    { rewrite array_set_lookup by done. destruct (decide (j = i)) as [->|Hne].
      - rewrite bool_decide_true by done. by rewrite Hv.
      - rewrite (inv_res0 Hf j Hj).
        rewrite (bool_decide_ext (j < n ∧ j ∉ i :: pend') (j < n ∧ j ∉ pend')); [done|].
        rewrite elem_of_cons. tauto. }
    by destruct onProgress.
  - intros _. specialize (inv_cnt0 Hf). simpl in inv_cnt0. destruct onProgress; simpl; lia.
  - intros _. by destruct onProgress.
  - destruct onProgress; simpl; congruence.
  - destruct onProgress; simpl.
    + transitivity ((λ c, (c, total)) <$> seq 1 (S (completed s))); [|done].
      rewrite seq_S, fmap_app, !progress_calls_snoc, app_nil_r, inv_progress0. done.
    + by push_events.
  - destruct inv_disp0 as (d & Hd & ? & Hdn). exists d. destruct onProgress; by push_events.
  - destruct onProgress; by push_events.
  - destruct onProgress; simpl; [|done].
    apply (within_limit_snoc _ _ (length pend')); [done|push_events; lia|done].
  - destruct onProgress; simpl; [|done]. by apply admits_when_idle_snoc.
  - intros Hff [c Hop]. rewrite Hop. simpl.
    destruct (inv_notify0 Hff) as [Ha Hne]; [by rewrite Hop|]. by apply notifies_snoc_settle.
  - intros Hff. destruct (inv_quiet0 Hff) as [Ha Hno].
    assert (no_failure_yet (trace s ++ [Settle i])) as Hno'.
    { apply no_failure_yet_snoc; [auto|]. intros j [= ->]. auto. }
    pose proof (quiet_snoc_settle _ i Ha) as Ha'.
    destruct onProgress; simpl; (split; [|intros _]); try done.
    + by apply quiet_snoc_clean.
    + by apply no_failure_yet_snoc.
Qed.

(** A task settles during or after an abort: nothing is stored. *)
Lemma aborted_inv k n i pend' ip fe s :
  inv k n (i :: pend') s → failFast = true → is_Some fe →
  inv k n pend' (emit (Settle i) (set_inProgress ip (set_firstError fe (set_failed true s)))).
Proof.
  intros [] Hff Hfe. destruct inv_pend0 as [Hnd Hlt].
  apply NoDup_cons in Hnd as [Hi Hnd].
  pose proof (pending_count _ _ _ inv_exec0) as Hcount. simpl in inv_room0, Hcount.
  constructor; simpl; try done; try congruence.
  - split; [done|]. intros j Hj. apply Hlt. by right.
  - lia.
  - by push_events.
  - destruct inv_disp0 as (d & Hd & ? & Hdn). exists d. by push_events.
  - push_events. by rewrite inv_exec0, <- app_assoc.
  - apply (within_limit_snoc _ _ (S (length pend'))); [done|done|lia].
  - by apply admits_when_idle_snoc.
  - intros _. destruct (inv_quiet0 Hff) as [Ha _]. split; [|done]. by apply quiet_snoc_settle.
Qed.

Lemma discard_inv k n i pend' s :
  inv k n (i :: pend') s → failed s = true → inv k n pend' (finally_block i s).
Proof.
  intros Hinv Hf. rewrite finally_block_failed by done.
  assert (failFast = true) as Hff.
  { destruct failFast eqn:E; [done|]. pose proof (inv_ff _ _ _ _ _ _ _ Hinv E). congruence. }
  pose proof (aborted_inv k n i pend' (set_delete i (inProgress s)) (firstError s) s
                Hinv Hff (inv_fe _ _ _ _ _ _ _ Hinv Hf)) as H.
  destruct s. simpl in *. by subst.
Qed.

Lemma catch_block_inv k n i pend' reason s :
  inv k n (i :: pend') s → outcome i = Reject reason →
  inv k n pend' (catch_block i reason s).
Proof.
  intros Hinv Ho. unfold TS.catch_block. destruct failFast eqn:Hff.
  - rewrite finally_block_failed by done. by apply aborted_inv.
  - apply record_inv; [done|by apply (inv_ff _ _ _ _ _ _ _ Hinv)| |congruence].
    by apply recorded_reject.
Qed.
Lemma resume_inv k n p pend' s :
  inv k n (p.1 :: pend') s → tasks !! p.1 = Some (Some (Async p.2.1 p.2.2)) →
  inv k n pend' (resume p s).
Proof.
  intros Hinv Ht. apply outcome_async in Ht.
  unfold TS.resume. destruct (p.2.2) as [v|reason].
  - destruct (failed s) eqn:Hf.
    + by apply discard_inv.
    + apply record_inv; [done|done|by apply recorded_resolve|].
      intros _. by eapply resolve_not_fails.
  - by apply catch_block_inv.
Qed.

Lemma processTask_inv k n pend s :
  inv k n pend s → n < k →
  inv k (S n) (pend ++ (option_list (processTask n s).2).*1) (processTask n s).1 ∧
  ∀ q, (processTask n s).2 = Some q → q.1 = n ∧ tasks !! n = Some (Some (Async q.2.1 q.2.2)).
Proof.
  intros Hinv Hn. unfold TS.processTask. destruct (failed s) eqn:Hf; simpl.
  { rewrite app_nil_r. split; [by apply skip_inv|done]. }
  rewrite bool_decide_false.
  2:{ intros Hin. apply (inv_proc _ _ _ _ _ _ _ Hinv) in Hin. lia. }
  pose proof (dispatch_inv _ _ _ _ Hinv Hf Hn) as Hd.
  assert (pend ++ [n] ≡ₚ n :: pend) as Hperm by (by rewrite Permutation_app_comm).
  destruct (tasks !! n) as [[[d o|reason]|]|] eqn:Ht; simpl.
  - split; [done|]. by intros q [= <-].
  - rewrite app_nil_r. split; [|done]. eapply catch_block_inv; [by eapply inv_perm|].
    unfold outcome. by rewrite Ht.
  - rewrite app_nil_r. split; [|done]. eapply catch_block_inv; [by eapply inv_perm|].
    unfold outcome. by rewrite Ht.
  - rewrite app_nil_r. split; [|done]. eapply catch_block_inv; [by eapply inv_perm|].
    unfold outcome. by rewrite Ht.
Qed.
(** Every suspended call waits for the promise of its own task. *)
Local Abbreviation suspended_ok P :=
  (∀ q : Suspended T, q ∈ P → tasks !! q.1 = Some (Some (Async q.2.1 q.2.2))).

Lemma start_all_inv m k n P s :
  k = n + m → inv k n (P.*1) s → suspended_ok P →
  let r := foldl (λ acc taskIndex,
                    let '(s', p) := processTask taskIndex acc.1 in
                    (s', acc.2 ++ option_list p)) (s, P) (seq n m) in
  inv k k (r.2.*1) r.1 ∧ suspended_ok r.2.
Proof.
  revert n P s. induction m as [|m IH]; intros n P s Hk Hinv HP; simpl.
  { split; [|done]. assert (k = n) as -> by lia. done. }
  destruct (processTask_inv k n (P.*1) s Hinv) as [Hinv' Hq]; [lia|].
  destruct (processTask n s) as [s' p]. simpl in *.
  apply IH; [lia|by rewrite fmap_app|].
  intros q [Hin|Hin]%elem_of_app; [by apply HP|].
  destruct p as [q'|]; simpl in Hin; [|by apply elem_of_nil in Hin].
  apply list_elem_of_singleton in Hin as ->.
  destruct (Hq q' eq_refl) as [Hq1 Hq2]. by rewrite Hq1.
Qed.

Lemma resume_all_inv k n Q s :
  inv k n (Q.*1) s → suspended_ok Q → inv k n [] (foldl (λ acc p, resume p acc) s Q).
Proof.
  revert s. induction Q as [|p Q IH]; intros s Hinv HQ; simpl; [done|].
  apply IH.
  - apply resume_inv; [done|]. apply HQ. by left.
  - intros q Hq. apply HQ. by right.
Qed.

Lemma await_all_inv k n s :
  inv k n [] s → inProgress s = seq n (k - n) → inv k k [] (await_all s).
Proof.
  intros Hinv Hip. unfold TS.await_all, TS.start_all. rewrite Hip.
  pose proof (inv_k _ _ _ _ _ _ _ Hinv) as Hk.
  destruct (start_all_inv (k - n) k n [] s) as [Hinv' HP]; [lia|done|by intros q ?%elem_of_nil|].
  destruct (foldl _ (s, []) (seq n (k - n))) as [s' P]. simpl in *.
  apply resume_all_inv.
  - eapply inv_perm; [|done]. by rewrite settle_order_perm.
  - intros q Hq. apply HP. by rewrite <- (settle_order_perm P).
Qed.

Lemma fill_inv q n k s :
  inv k n [] s → failed s = false → inProgress s = seq n (k - n) → q = seq k (total - k) →
  ∃ k', k ≤ k' ∧ inv k' n [] (fill q s) ∧ failed (fill q s) = false ∧
        inProgress (fill q s) = seq n (k' - n) ∧ (k' = total ∨ limit ≤ k' - n).
Proof.
  revert k s. induction q as [|i q IH]; intros k s Hinv Hf Hip Hq; simpl.
  { exists k. split_and!; try done. left.
    pose proof (inv_k _ _ _ _ _ _ _ Hinv). destruct (total - k) eqn:E; [lia|done]. }
  pose proof (inv_k _ _ _ _ _ _ _ Hinv) as Hk.
  destruct (total - k) as [|m] eqn:E; [done|]. simpl in Hq. injection Hq as -> ->.
  rewrite Hf, Hip, length_seq. simpl. rewrite andb_true_r. case_bool_decide as Hc.
  - rewrite set_add_fresh by (rewrite elem_of_seq; lia).
    assert (m = total - S k) as -> by lia. rewrite <- Hip.
    set (s1 := emit (Admit k) (set_inProgress (inProgress s ++ [k])
                                 (set_queue (seq (S k) (total - S k)) s))).
    assert (inv (S k) n [] s1) as Hinv1 by (apply admit_inv; [done|done|lia|lia]).
    assert (inProgress s1 = seq n (S k - n)) as Hip1.
    { simpl. rewrite Hip. replace (S k - n) with (S (k - n)) by lia.
      rewrite seq_S. do 2 f_equal. lia. }
    destruct (IH (S k) s1 Hinv1 Hf Hip1 eq_refl) as (k' & ? & ? & ? & ? & ?).
    exists k'. split_and!; try done. lia.
  - exists k. split_and!; try done. right. lia.
Qed.
Lemma head_idle k s : inv k k [] s → failed s = false → inProgress s = [].
Proof.
  intros Hinv Hf. destruct (inProgress s) as [|i l] eqn:E; [done|].
  assert (i ∈ inProgress s) as Hi by (rewrite E; left).
  apply (inv_inprog _ _ _ _ _ _ _ Hinv Hf) in Hi as [?|Hi]; [lia|by apply elem_of_nil in Hi].
Qed.

(** How a call ends, in terms of the final state. *)
Lemma main_loop_inv fuel k s r s' :
  inv k k [] s → failed s = false → main_loop fuel s = (r, s') →
  ∃ k', inv k' k' [] s' ∧
    match r with
    | Returned rs =>
        failed s' = false ∧ k' = total ∧ rs = results s' ∧
        every instanceofError rs = false
    | Threw ThrowFirstError e => failed s' = true ∧ firstError s' = Some e
    | Threw ThrowAllFailed e =>
        failed s' = false ∧ k' = total ∧ every instanceofError (results s') = true ∧
        e = mkError ("All tasks failed to execute: " +:+ join ", " (messages (results s')))
    | OutOfFuel => ¬ (1 ≤ concurrency)%Z ∨ fuel ≤ total - k
    end.
Proof.
  revert k s. induction fuel as [|fuel IH]; intros k s Hinv Hf Hrun; simpl in Hrun.
  { injection Hrun as <- <-. exists k. split; [done|]. right. lia. }
  pose proof (inv_k _ _ _ _ _ _ _ Hinv) as Hk.
  pose proof (inv_queue _ _ _ _ _ _ _ Hinv) as Hq.
  rewrite Hf, Hq, length_seq in Hrun. simpl in Hrun. rewrite andb_true_r in Hrun.
  case_bool_decide as Hlt.
  - destruct (fill_inv (seq k (total - k)) k k s Hinv Hf) as (k' & Hk' & Hinv1 & Hf1 & Hip1 & Hfull);
      [rewrite Nat.sub_diag; by apply (head_idle k)|done|].
    rewrite Hip1, length_seq in Hrun. case_bool_decide as Hadm.
    + pose proof (await_all_inv _ _ _ Hinv1 Hip1) as Hinv2.
      destruct (failed (await_all _)) eqn:Hf2.
      * destruct (inv_fe _ _ _ _ _ _ _ Hinv2 Hf2) as [e He]. rewrite He in Hrun.
        injection Hrun as <- <-. exists k'. by rewrite Hf2, He.
      * destruct (IH k' _ Hinv2 Hf2 Hrun) as (k'' & ? & Hr). exists k''. split; [done|].
        destruct r; try done. destruct Hr as [?|?]; [by left|right; lia].
    + assert (k' = k) as -> by lia.
      destruct (IH k _ Hinv1 Hf1 Hrun) as (k'' & ? & Hr). exists k''. split; [done|].
      destruct r; try done. destruct Hr as [?|?]; [by left|]. left. lia.
  - assert (k = total) as -> by lia. unfold TS.finish in Hrun.
    destruct (every instanceofError (results s)) eqn:Hev; injection Hrun as <- <-;
      exists total; done.
Qed.

Lemma asyncBatch_inv fuel r s' :
  asyncBatch fuel = (r, s') →
  ∃ k', inv k' k' [] s' ∧
    match r with
    | Returned rs =>
        failed s' = false ∧ k' = total ∧ rs = results s' ∧
        every instanceofError rs = false
    | Threw ThrowFirstError e => failed s' = true ∧ firstError s' = Some e
    | Threw ThrowAllFailed e =>
        failed s' = false ∧ k' = total ∧ every instanceofError (results s') = true ∧
        e = mkError ("All tasks failed to execute: " +:+ join ", " (messages (results s')))
    | OutOfFuel => ¬ (1 ≤ concurrency)%Z ∨ fuel ≤ total
    end.
Proof.
  intros Hrun. destruct (main_loop_inv fuel 0 initial r s' inv_initial eq_refl Hrun)
    as (k' & ? & Hr).
  exists k'. split; [done|]. destruct r; try done. by rewrite Nat.sub_0_r in Hr.
Qed.
(** When every task has been admitted and has settled without an abort, the
    result array holds what each task left, index by index. *)
Lemma final_results s :
  inv total total [] s → failed s = false →
  results s = (λ i, Some (recorded i)) <$> seq 0 total.
Proof.
  intros Hinv Hf. apply list_eq. intros i. destruct (decide (i < total)) as [Hi|Hi].
  - rewrite (inv_res _ _ _ _ _ _ _ Hinv Hf i Hi), list_lookup_fmap, lookup_seq_lt by done.
    rewrite bool_decide_true; [done|]. split; [done|]. by intros ?%elem_of_nil.
  - rewrite !lookup_ge_None_2; [done| |].
    + rewrite length_fmap, length_seq. lia.
    + rewrite (inv_len _ _ _ _ _ _ _ Hinv). lia.
Qed.

Lemma final_lookup s i :
  inv total total [] s → failed s = false → i < total →
  results s !! i = Some (Some (recorded i)).
Proof.
  intros Hinv Hf Hi. rewrite (final_results s Hinv Hf), list_lookup_fmap, lookup_seq_lt by done.
  done.
Qed.

(** With a concurrency of at least one, [length tasks + 1] iterations of the
    main loop are enough. *)
Lemma asyncBatch_terminates fuel :
  (1 ≤ concurrency)%Z → total < fuel → (asyncBatch fuel).1 ≠ OutOfFuel.
Proof.
  intros Hc Hfuel Hout. destruct (asyncBatch fuel) as [r s'] eqn:Hrun. simpl in Hout. subst r.
  destruct (asyncBatch_inv _ _ _ Hrun) as (k' & _ & [?|?]); [done|lia].
Qed.

(** Storing only [Error] objects ends in the aggregate error. *)
Lemma all_errors_aggregate fuel (errs : list Error) :
  failFast = false → (1 ≤ concurrency)%Z → total < fuel →
  length errs = total →
  (∀ i e, errs !! i = Some e → recorded i = ErrorObj e) →
  (asyncBatch fuel).1 =
    Threw ThrowAllFailed
      (mkError ("All tasks failed to execute: " +:+ join ", " (message <$> errs))).
Proof.
  intros Hff Hc Hfuel Hlen Herrs.
  pose proof (asyncBatch_terminates fuel Hc Hfuel) as Hterm.
  destruct (asyncBatch fuel) as [r s'] eqn:Hrun. simpl in *.
  destruct (asyncBatch_inv _ _ _ Hrun) as (k' & Hinv & Hr).
  pose proof (inv_ff _ _ _ _ _ _ _ Hinv Hff) as Hf.
  assert (k' = total → results s' = (λ e, Some (ErrorObj e)) <$> errs) as Hres.
  { intros ->. rewrite (final_results s' Hinv Hf). apply list_eq. intros i.
    rewrite !list_lookup_fmap. destruct (errs !! i) as [e|] eqn:He; simpl.
    - rewrite lookup_seq_lt by (apply lookup_lt_Some in He; lia). simpl.
      by rewrite (Herrs i e He).
    - rewrite lookup_seq_ge; [done|]. apply lookup_ge_None in He. lia. }
  assert (∀ l : list Error, every instanceofError ((λ e, Some (ErrorObj (T:=T) e)) <$> l) = true)
    as Hev by (induction l; simpl; done).
  destruct r as [rs|[] e|]; try done.
  - destruct Hr as (_ & -> & -> & Hno). rewrite Hres, Hev in Hno by done. done.
  - destruct Hr as [? ?]. congruence.
  - destruct Hr as (_ & -> & _ & ->). rewrite Hres by done. do 3 f_equal.
    unfold messages. rewrite <- list_fmap_compose. done.
Qed.
(** *** After an abort *)

Lemma processTask_after_abort i s : failed s = true → processTask i s = (s, None).
Proof. intros Hf. unfold TS.processTask. by rewrite Hf. Qed.

Lemma fill_after_abort q (s : State T) : failed s = true → fill q s = s.
Proof. intros Hf. destruct q; simpl; [done|]. by rewrite Hf, andb_false_r. Qed.

Lemma resume_after_abort p s :
  failFast = true → failed s = true →
  failed (resume p s) = true ∧ results (resume p s) = results s ∧
  completed (resume p s) = completed s ∧ queue (resume p s) = queue s ∧
  trace (resume p s) = trace s ++ [Settle p.1].
Proof.
  intros Hff Hf. unfold TS.resume, TS.catch_block. rewrite Hff, Hf.
  destruct (p.2.2); rewrite finally_block_failed by done; simpl; by rewrite ?Hf.
Qed.

Lemma resume_all_after_abort l s :
  failFast = true → failed s = true →
  let s' := foldl (λ acc p, resume p acc) s l in
  failed s' = true ∧ results s' = results s ∧ completed s' = completed s ∧
  queue s' = queue s ∧ trace s' = trace s ++ (Settle ∘ fst <$> l).
Proof.
  intros Hff. revert s. induction l as [|p l IH]; intros s Hf; simpl.
  { by rewrite app_nil_r. }
  destruct (resume_after_abort p s Hff Hf) as (Hf' & Hr & Hc & Hq & Ht).
  destruct (IH _ Hf') as (? & ? & ? & ? & Ht'). split_and!; try congruence.
  rewrite Ht', Ht, <- app_assoc. done.
Qed.

(** *** Reading the trace properties *)

Lemma always_prefix (P : list Event → Prop) p tr :
  always P tr → p `prefix_of` tr → always P p.
Proof. intros Ha Hp q Hq. apply Ha. by etrans. Qed.

Lemma quiet_after_failure_suffix tr pre i post :
  always quiet_after_failure tr → tr = pre ++ Settle i :: post → fails i →
  Forall is_settle post.
Proof.
  intros Ha Htr Hi. revert tr Ha Htr. induction post as [|e post IH] using rev_ind;
    intros tr Ha Htr; [done|].
  apply Forall_app. split.
  - apply (IH (pre ++ Settle i :: post)); [|done]. eapply always_prefix; [done|].
    rewrite Htr. exists [e]. by rewrite <- app_assoc.
  - apply Forall_singleton. apply (always_here _ _ Ha (pre ++ Settle i :: post) e).
    + by rewrite Htr, <- app_assoc.
    + exists i. split; [|done]. apply elem_of_app. right. left.
Qed.

Lemma notified_after_settle tr pre i post :
  always notifies_after_settle tr → (∀ p' j, tr ≠ p' ++ [Settle j]) →
  tr = pre ++ Settle i :: post → ∃ c post', post = Progress c total :: post'.
Proof.
  intros Ha Hne Htr. destruct post as [|e post']; [by apply Hne in Htr|].
  destruct (Ha (pre ++ [Settle i; e])) with (p' := pre) (i := i) (e := e) as [c ->]; [|done|].
  - exists post'. by rewrite Htr, <- app_assoc.
  - by exists c, post'.
Qed.

Lemma executing_within_limit tr p :
  always within_limit tr → p `prefix_of` tr →
  (0 ≤ executing p ≤ Z.max 0 concurrency)%Z.
Proof. intros Ha Hp. specialize (Ha p Hp). unfold within_limit, executing in *. lia. Qed.

Lemma executing_snoc_dispatch p i : executing (p ++ [Dispatch i]) = (executing p + 1)%Z.
Proof. unfold executing. rewrite dispatches_snoc, settles_snoc, app_nil_r, length_app. simpl. lia. Qed.
End Run.

(** ** An invalid concurrency *)

Lemma fill_admits_nothing {T} options q (s : State T) :
  (TS.concurrency options < 1)%Z → TS.fill options q s = s.
Proof.
  intros Hc. destruct q as [|i q]; simpl; [done|].
  rewrite bool_decide_false; [done|lia].
Qed.

Lemma main_loop_spins {T} (toString : T → string) tasks options fuel :
  (TS.concurrency options < 1)%Z → tasks ≠ [] →
  TS.main_loop toString tasks options fuel (TS.initial tasks) = (OutOfFuel, TS.initial tasks).
Proof.
  intros Hc Hne. induction fuel as [|fuel IH]; simpl; [done|].
  rewrite fill_admits_nothing by done. simpl.
  rewrite queue_indices. destruct tasks as [|t tasks']; [done|]. simpl. apply IH.
Qed.

(** * The claims *)

(** C1 (the code departs from the claim): for the empty task list the
    call does not return the empty list.  [every] holds vacuously of the
    empty result array, so whatever the options the call throws the
    aggregate error, with the message "All tasks failed to execute: ";
    no event happens before, so [onProgress] is never invoked. *)
Theorem empty_input_throws_all_failed {T} (toString : T → string) options fuel :
  TS.asyncBatch toString [] options (S fuel) =
    (Threw ThrowAllFailed (mkError "All tasks failed to execute: "), TS.initial []).
Proof. reflexivity. Qed.

(** C2 (the code departs from the claim): two tasks of one wave reject,
    "A" first and "B" second, under failFast.  [firstError] is overwritten
    by every later failure of the wave, so the call throws the error of the
    failure that settled last, "B", and not that of the first one. *)
Theorem fail_fast_throws_last_failure_of_wave :
  let run := TS.asyncBatch showZ [rejects 0 "A"; rejects 0 "B"]
               (AsyncBatchOptions.mk None (Some true) None) 3 in
  settles (trace run.2) = [0; 1] ∧ run.1 = Threw ThrowFirstError (mkError "B").
Proof. vm_compute. done. Qed.

(** C3, as amended: the options are not validated.  With a concurrency
    below one and at least one task, no configuration error is raised: the
    fill loop admits nothing, the main loop never ends (it is still running
    after any number of iterations, in its initial state), and no task is
    admitted or invoked. *)
Theorem concurrency_below_one_never_settles {T} (toString : T → string) tasks options fuel :
  (TS.concurrency options < 1)%Z → tasks ≠ [] →
  TS.asyncBatch toString tasks options fuel = (OutOfFuel, TS.initial tasks) ∧
  trace (TS.initial tasks) = [].
Proof. intros Hc Hne. split; [by apply main_loop_spins|done]. Qed.

(** C4: when a run returns a result list, the list is as long as the task
    list, the value of every task that resolves is at the index of the
    task and, with failFast off, the error of every task that fails is at
    the index of the task. *)
Theorem returned_results_are_index_aligned {T} (toString : T → string) tasks options fuel rs :
  (TS.asyncBatch toString tasks options fuel).1 = Returned rs →
  length rs = length tasks ∧
  (∀ i d v, tasks !! i = Some (Some (Async d (Resolve v))) → rs !! i = Some (Some v)) ∧
  (TS.failFast options = false →
   ∀ i reason, i < length tasks → outcome tasks i = Reject reason →
               rs !! i = Some (Some (ErrorObj (toError toString reason)))).
Proof.
  destruct (TS.asyncBatch toString tasks options fuel) as [r s'] eqn:Hrun. simpl. intros ->.
  destruct (asyncBatch_inv _ _ _ _ _ _ Hrun) as (k' & Hinv & Hf & -> & -> & _).
  split_and!.
  - apply (inv_len _ _ _ _ _ _ _ Hinv).
  - intros i d v Ht. rewrite (final_lookup _ _ _ _ _ Hinv Hf).
    + by rewrite (recorded_resolve _ _ _ v) by (by eapply outcome_async).
    + by apply lookup_lt_Some in Ht.
  - intros _ i reason Hi Ho. rewrite (final_lookup _ _ _ _ _ Hinv Hf) by done.
    by rewrite (recorded_reject _ _ _ reason).
Qed.

(** With failFast off, when every task fails, with the errors [errs] in
    index order, the run throws the aggregate error whose message is
    "All tasks failed to execute: " followed by the messages of [errs]
    joined by ", ". *)
Lemma all_failed_aggregate_message {T} (toString : T → string) tasks options fuel errs :
  TS.failFast options = false → (1 ≤ TS.concurrency options)%Z → length tasks < fuel →
  length errs = length tasks →
  (∀ i e, errs !! i = Some e →
          ∃ reason, outcome tasks i = Reject reason ∧ e = toError toString reason) →
  (TS.asyncBatch toString tasks options fuel).1 =
    Threw ThrowAllFailed
      (mkError ("All tasks failed to execute: " +:+ join ", " (message <$> errs))).
Proof.
  intros Hff Hc Hfuel Hlen Herrs. apply all_errors_aggregate; try done.
  intros i e (reason & Ho & ->)%Herrs. by apply recorded_reject.
Qed.

(** Whenever a run, under any options, throws the aggregate error, the
    abort flag is not set. *)
Lemma aggregate_thrown_without_abort {T} (toString : T → string) tasks options fuel e :
  (TS.asyncBatch toString tasks options fuel).1 = Threw ThrowAllFailed e →
  failed (TS.asyncBatch toString tasks options fuel).2 = false.
Proof.
  destruct (TS.asyncBatch toString tasks options fuel) as [r s'] eqn:Hrun. simpl. intros ->.
  by destruct (asyncBatch_inv _ _ _ _ _ _ Hrun) as (k' & _ & ? & _).
Qed.

(** C5 (the code departs from the claim): the aggregate error is not
    reserved to runs with failFast off.  The epilogue tests neither
    [failFast] nor the abort flag, only whether every stored result is an
    [Error] object.  Under failFast a task that resolves with an [Error]
    object sets no abort flag and its value is stored, so the call throws
    the aggregate error, "All tasks failed to execute: E1", although
    failFast is on and no task has failed. *)
Theorem aggregate_thrown_with_fail_fast_on :
  let options := AsyncBatchOptions.mk None (Some true) None in
  let run := TS.asyncBatch showZ [resolves_error 0 "E1"] options 2 in
  TS.failFast options = true ∧
  settles (trace run.2) = [0] ∧ failed run.2 = false ∧
  run.1 = Threw ThrowAllFailed (mkError "All tasks failed to execute: E1").
Proof. vm_compute. done. Qed.

(** C6: with failFast off and a progress callback, a run calls the
    callback once for each settled task, synchronously: every task settles
    exactly once, every settlement is followed at once by a call, and the
    calls are onProgress(1, total), onProgress(2, total), ...,
    onProgress(total, total), in this order, with total the number of tasks. *)
Theorem progress_called_once_per_settlement {T} (toString : T → string) tasks options fuel cb :
  TS.failFast options = false → AsyncBatchOptions.onProgress options = Some cb →
  (1 ≤ TS.concurrency options)%Z → length tasks < fuel →
  let tr := trace (TS.asyncBatch toString tasks options fuel).2 in
  progress_calls tr = (λ c, (c, length tasks)) <$> seq 1 (length tasks) ∧
  settles tr ≡ₚ seq 0 (length tasks) ∧
  (∀ pre i post, tr = pre ++ Settle i :: post →
                 ∃ c post', post = Progress c (length tasks) :: post').
Proof.
  intros Hff Hop Hc Hfuel.
  pose proof (asyncBatch_terminates toString tasks options fuel Hc Hfuel) as Hterm.
  destruct (TS.asyncBatch toString tasks options fuel) as [r s'] eqn:Hrun. simpl in *.
  destruct (asyncBatch_inv _ _ _ _ _ _ Hrun) as (k' & Hinv & Hr).
  pose proof (inv_ff _ _ _ _ _ _ _ Hinv Hff) as Hf.
  assert (k' = length tasks) as ->.
  { destruct r as [rs|[] e|]; try done; [by destruct Hr as (_ & -> & _)| |by destruct Hr as (_ & -> & _)].
    destruct Hr. congruence. }
  pose proof (inv_cnt _ _ _ _ _ _ _ Hinv Hf) as Hcnt. simpl in Hcnt.
  destruct (inv_notify _ _ _ _ _ _ _ Hinv Hff) as [Hnot Hlast].
  { unfold TS.onProgress. by rewrite Hop. }
  split_and!.
  - rewrite (inv_progress _ _ _ _ _ _ _ Hinv). unfold TS.onProgress. rewrite Hop.
    by rewrite Nat.add_0_r in Hcnt; rewrite Hcnt.
  - pose proof (inv_exec _ _ _ _ _ _ _ Hinv) as He.
    destruct (inv_disp _ _ _ _ _ _ _ Hinv) as (d & Hd & _ & Hdn).
    by rewrite Hd, (Hdn Hf), app_nil_r in He.
  - intros pre i post Htr. by eapply notified_after_settle.
Qed.

(** C7: under failFast, once a task has failed (its [processTask] has set
    the abort flag and reached its finally block), the rest of the run
    consists of settlements only: no task is admitted or dispatched and
    [onProgress] is not called.  In a state whose abort flag is set,
    [processTask] returns at its guard, the fill loop admits nothing, and
    resuming the suspended calls of the wave, in any number and order,
    writes no result, leaves the completed counter and the queue as they are
    and calls no callback. *)
Theorem abort_discards_later_settlements {T} (toString : T → string) tasks options :
  TS.failFast options = true →
  (∀ fuel pre i post,
     trace (TS.asyncBatch toString tasks options fuel).2 = pre ++ Settle i :: post →
     fails tasks i → Forall is_settle post) ∧
  (∀ s : State T, failed s = true →
     (∀ i, TS.processTask toString tasks options i s = (s, None)) ∧
     (∀ q, TS.fill options q s = s) ∧
     (∀ l, let s' := foldl (λ acc p, TS.resume toString tasks options p acc) s l in
           failed s' = true ∧ results s' = results s ∧ completed s' = completed s ∧
           queue s' = queue s ∧ trace s' = trace s ++ (Settle ∘ fst <$> l))).
Proof.
  intros Hff. split.
  - intros fuel pre i post Htr Hi.
    destruct (TS.asyncBatch toString tasks options fuel) as [r s'] eqn:Hrun. simpl in *.
    destruct (asyncBatch_inv _ _ _ _ _ _ Hrun) as (k' & Hinv & _).
    destruct (inv_quiet _ _ _ _ _ _ _ Hinv Hff) as [Hq _].
    by eapply quiet_after_failure_suffix.
  - intros s Hf. split_and!.
    + intros i. by apply processTask_after_abort.
    + intros q. by apply fill_after_abort.
    + intros l. by apply resume_all_after_abort.
Qed.

(** C8: at every instant of every run, the number of tasks that are
    executing is at most the concurrency (none when it is below one); the
    tasks are dispatched in the order of their indices, each at most once;
    a task is admitted only when no task is executing, that is when the
    whole previous wave has settled; and with a concurrency of one a task is
    dispatched only when no other task is executing. *)
Theorem concurrency_is_bounded_and_dispatch_ordered {T} (toString : T → string) tasks options fuel :
  let tr := trace (TS.asyncBatch toString tasks options fuel).2 in
  (∀ p, p `prefix_of` tr → (0 ≤ executing p ≤ Z.max 0 (TS.concurrency options))%Z) ∧
  (∃ d, d ≤ length tasks ∧ dispatches tr = seq 0 d) ∧
  (∀ p i, p ++ [Admit i] `prefix_of` tr → executing p = 0%Z) ∧
  (TS.concurrency options = 1%Z →
   ∀ p i, p ++ [Dispatch i] `prefix_of` tr → executing p = 0%Z).
Proof.
  destruct (TS.asyncBatch toString tasks options fuel) as [r s'] eqn:Hrun. simpl.
  destruct (asyncBatch_inv _ _ _ _ _ _ Hrun) as (k' & Hinv & _).
  pose proof (inv_limit _ _ _ _ _ _ _ Hinv) as Hlim.
  split_and!.
  - intros p Hp. by eapply executing_within_limit.
  - destruct (inv_disp _ _ _ _ _ _ _ Hinv) as (d & Hd & Hdk & _). exists d. split; [|done].
    pose proof (inv_k _ _ _ _ _ _ _ Hinv). unfold TS.total in *. lia.
  - intros p i Hp. pose proof (inv_admit _ _ _ _ _ _ _ Hinv _ Hp p i eq_refl) as He.
    unfold executing. lia.
  - intros Hc p i Hp.
    pose proof (executing_within_limit options _ _ Hlim Hp) as H1.
    assert (p `prefix_of` trace s') as Hp' by (etrans; [by apply prefix_app_r|done]).
    pose proof (executing_within_limit options _ _ Hlim Hp') as H2.
    rewrite executing_snoc_dispatch in H1. lia.
Qed.

(** C10: a task that resolves with an [Error] object counts as failed.
    With failFast off, when every task resolves and every resolved value is
    an [Error] object, the run does not return the values: it throws the
    aggregate error, built from the messages of these objects. *)
Theorem resolved_errors_throw_aggregate {T} (toString : T → string) tasks options fuel errs :
  TS.failFast options = false → (1 ≤ TS.concurrency options)%Z → length tasks < fuel →
  length errs = length tasks →
  (∀ i e, errs !! i = Some e →
          ∃ d, tasks !! i = Some (Some (Async d (Resolve (ErrorObj e))))) →
  (TS.asyncBatch toString tasks options fuel).1 =
    Threw ThrowAllFailed
      (mkError ("All tasks failed to execute: " +:+ join ", " (message <$> errs))).
Proof.
  intros Hff Hc Hfuel Hlen Herrs. apply all_errors_aggregate; try done.
  intros i e [d Ht]%Herrs. apply recorded_resolve. by eapply outcome_async.
Qed.

(** * The claims on concrete runs *)

(** A single task and a concurrency of zero: the call throws nothing,
    whatever the number of iterations it is given. *)
Lemma concurrency_zero_raises_nothing :
  ¬ ∃ fuel site e,
      (TS.asyncBatch showZ [resolves 0 1] (AsyncBatchOptions.mk (Some 0%Z) None None) fuel).1 =
      Threw site e.
Proof.
  intros (fuel & site & e & H). unfold TS.asyncBatch in H.
  rewrite main_loop_spins in H; done.
Qed.

Lemma concurrency_below_one_never_settles_witness :
  let tasks := [resolves 0 1] in
  let options := AsyncBatchOptions.mk (Some 0%Z) None None in
  ((TS.concurrency options < 1)%Z ∧ tasks ≠ []) ∧
  TS.asyncBatch showZ tasks options 10 = (OutOfFuel, TS.initial tasks) ∧
  trace (TS.initial tasks) = [].
Proof.
  split; [split; [reflexivity|discriminate]|].
  apply (concurrency_below_one_never_settles showZ [resolves 0 1]
           (AsyncBatchOptions.mk (Some 0%Z) None None) 10); [reflexivity|discriminate].
Defined.

Lemma returned_results_are_index_aligned_witness :
  let tasks := [resolves 0 1; rejects 0 "X"; resolves 0 3] in
  let rs := [Some (Plain 1%Z); Some (ErrorObj (mkError "X")); Some (Plain 3%Z)] in
  (TS.asyncBatch showZ tasks no_options 4).1 = Returned rs ∧
  length rs = length tasks ∧
  (∀ i d v, tasks !! i = Some (Some (Async d (Resolve v))) → rs !! i = Some (Some v)) ∧
  (TS.failFast no_options = false →
   ∀ i reason, i < length tasks → outcome tasks i = Reject reason →
               rs !! i = Some (Some (ErrorObj (toError showZ reason)))).
Proof.
  split; [vm_compute; reflexivity|].
  apply (returned_results_are_index_aligned showZ
           [resolves 0 1; rejects 0 "X"; resolves 0 3] no_options 4).
  vm_compute; reflexivity.
Defined.

(** Three tasks that reject with "Error 1", "Error 2" and "Error 3". *)
Example all_failed_aggregate_message_example :
  (TS.asyncBatch showZ [rejects 0 "Error 1"; rejects 0 "Error 2"; rejects 0 "Error 3"]
     no_options 4).1 =
    Threw ThrowAllFailed (mkError "All tasks failed to execute: Error 1, Error 2, Error 3").
Proof.
  apply (all_failed_aggregate_message showZ
           [rejects 0 "Error 1"; rejects 0 "Error 2"; rejects 0 "Error 3"] no_options 4
           [mkError "Error 1"; mkError "Error 2"; mkError "Error 3"]).
  - reflexivity.
  - vm_compute; discriminate.
  - simpl; lia.
  - reflexivity.
  - intros [|[|[|i]]] e He; simplify_eq/=; eexists; (split; [reflexivity|reflexivity]).
Qed.

Lemma progress_called_once_per_settlement_witness :
  let tasks := [resolves 50 1; resolves 30 2; resolves 10 3] in
  let options := AsyncBatchOptions.mk (Some 2%Z) None (Some callback) in
  let tr := trace (TS.asyncBatch showZ tasks options 4).2 in
  (TS.failFast options = false ∧ (1 ≤ TS.concurrency options)%Z ∧ length tasks < 4) ∧
  progress_calls tr = [(1, 3); (2, 3); (3, 3)] ∧
  settles tr ≡ₚ [0; 1; 2] ∧
  (∀ pre i post, tr = pre ++ Settle i :: post → ∃ c post', post = Progress c 3 :: post').
Proof.
  split; [split_and!; [reflexivity|vm_compute; discriminate|simpl; lia]|].
  apply (progress_called_once_per_settlement showZ
           [resolves 50 1; resolves 30 2; resolves 10 3]
           (AsyncBatchOptions.mk (Some 2%Z) None (Some callback)) 4 callback).
  - reflexivity.
  - reflexivity.
  - vm_compute; discriminate.
  - simpl; lia.
Defined.

Lemma abort_discards_later_settlements_witness :
  let tasks := [resolves 0 1; rejects 0 "Task failed"; resolves 0 3] in
  let options := AsyncBatchOptions.mk None (Some true) None in
  TS.failFast options = true ∧
  (∀ fuel pre i post,
     trace (TS.asyncBatch showZ tasks options fuel).2 = pre ++ Settle i :: post →
     fails tasks i → Forall is_settle post) ∧
  (∀ s : State Z, failed s = true →
     (∀ i, TS.processTask showZ tasks options i s = (s, None)) ∧
     (∀ q, TS.fill options q s = s) ∧
     (∀ l, let s' := foldl (λ acc p, TS.resume showZ tasks options p acc) s l in
           failed s' = true ∧ results s' = results s ∧ completed s' = completed s ∧
           queue s' = queue s ∧ trace s' = trace s ++ (Settle ∘ fst <$> l))).
Proof.
  split; [reflexivity|].
  apply (abort_discards_later_settlements showZ
           [resolves 0 1; rejects 0 "Task failed"; resolves 0 3]
           (AsyncBatchOptions.mk None (Some true) None)).
  reflexivity.
Defined.

Lemma resolved_errors_throw_aggregate_witness :
  let tasks := [resolves_error 0 "E1"; resolves_error 5 "E2"] in
  let errs := [mkError "E1"; mkError "E2"] in
  (TS.failFast no_options = false ∧ (1 ≤ TS.concurrency no_options)%Z ∧ length tasks < 3 ∧
   length errs = length tasks) ∧
  (TS.asyncBatch showZ tasks no_options 3).1 =
    Threw ThrowAllFailed (mkError "All tasks failed to execute: E1, E2").
Proof.
  split; [split_and!; [reflexivity|vm_compute; discriminate|simpl; lia|reflexivity]|].
  apply (resolved_errors_throw_aggregate showZ
           [resolves_error 0 "E1"; resolves_error 5 "E2"] no_options 3
           [mkError "E1"; mkError "E2"]).
  - reflexivity.
  - vm_compute; discriminate.
  - simpl; lia.
  - reflexivity.
  - intros [|[|i]] e He; simplify_eq/=; eexists; reflexivity.
Defined.

(** * Further properties of [asyncBatch] *)

(** ** An induction principle for runs

    A property of the state that the three kinds of steps of a run keep,
    each taken in a state that satisfies the invariant, holds of the state
    in which the run is after any number of iterations. *)

Section RunInduction.
Context {T : Type} (toString : T → string).
Variable tasks : list (option (Task T)).
Variable options : AsyncBatchOptions.t.

Local Abbreviation concurrency := (TS.concurrency options).
Local Abbreviation total := (TS.total tasks).
Local Abbreviation initial := (TS.initial tasks).
Local Abbreviation processTask := (TS.processTask toString tasks options).
Local Abbreviation resume := (TS.resume toString tasks options).
Local Abbreviation await_all := (TS.await_all toString tasks options).
Local Abbreviation fill := (TS.fill options).
Local Abbreviation main_loop := (TS.main_loop toString tasks options).
Local Abbreviation asyncBatch := (TS.asyncBatch toString tasks options).
Local Abbreviation limit := (Z.to_nat concurrency).
Local Abbreviation inv := (inv toString tasks options).
Local Abbreviation suspended_ok Q :=
  (∀ q : Suspended T, q ∈ Q → tasks !! q.1 = Some (Some (Async q.2.1 q.2.2))).

Variable P : State T → Prop.

Hypothesis P_admit : ∀ k n s,
  inv k n [] s → failed s = false → k < total → k - n < limit → P s →
  P (emit (Admit k)
       (set_inProgress (inProgress s ++ [k]) (set_queue (seq (S k) (total - S k)) s))).
Hypothesis P_start : ∀ k n pend s,
  inv k n pend s → n < k → P s → P (processTask n s).1.
Hypothesis P_resume : ∀ k n p pend' s,
  inv k n (p.1 :: pend') s → tasks !! p.1 = Some (Some (Async p.2.1 p.2.2)) →
  P s → P (resume p s).

Lemma start_all_keeps m k n Q s :
  k = n + m → inv k n (Q.*1) s → suspended_ok Q → P s →
  P (foldl (λ acc taskIndex,
              let '(s', p) := processTask taskIndex acc.1 in
              (s', acc.2 ++ option_list p)) (s, Q) (seq n m)).1.
Proof using P_start.
  revert n Q s. induction m as [|m IH]; intros n Q s Hk Hinv HQ HP; simpl; [done|].
  destruct (processTask_inv toString tasks options k n (Q.*1) s Hinv) as [Hinv' Hq]; [lia|].
  pose proof (P_start k n (Q.*1) s Hinv ltac:(lia) HP) as HP'.
  destruct (processTask n s) as [s' p]. simpl in *.
  apply IH; [lia|by rewrite fmap_app| |done].
  intros q [Hin|Hin]%elem_of_app; [by apply HQ|].
  destruct p as [q'|]; simpl in Hin; [|by apply elem_of_nil in Hin].
  apply list_elem_of_singleton in Hin as ->.
  destruct (Hq q' eq_refl) as [Hq1 Hq2]. by rewrite Hq1.
Qed.

Lemma resume_all_keeps k n Q s :
  inv k n (Q.*1) s → suspended_ok Q → P s → P (foldl (λ acc p, resume p acc) s Q).
Proof using P_resume.
  revert s. induction Q as [|p Q IH]; intros s Hinv HQ HP; simpl; [done|].
  assert (tasks !! p.1 = Some (Some (Async p.2.1 p.2.2))) as Hp by (apply HQ; left).
  apply IH.
  - by apply resume_inv.
  - intros q Hq. apply HQ. by right.
  - by eapply P_resume.
Qed.

Lemma await_all_keeps k n s :
  inv k n [] s → inProgress s = seq n (k - n) → P s → P (await_all s).
Proof using P_start P_resume.
  intros Hinv Hip HP. unfold TS.await_all, TS.start_all. rewrite Hip.
  pose proof (inv_k _ _ _ _ _ _ _ Hinv) as Hk.
  destruct (start_all_inv toString tasks options (k - n) k n [] s) as [Hinv' HQ];
    [lia|done|by intros q ?%elem_of_nil|].
  pose proof (start_all_keeps (k - n) k n [] s ltac:(lia) Hinv
                ltac:(by intros q ?%elem_of_nil) HP) as HP'.
  destruct (foldl _ (s, []) (seq n (k - n))) as [s' Q]. simpl in *.
  apply (resume_all_keeps k k); [|intros q Hq; apply HQ; by rewrite <- (settle_order_perm Q)|done].
  eapply inv_perm; [|done]. by rewrite settle_order_perm.
Qed.

Lemma fill_keeps q n k s :
  inv k n [] s → failed s = false → inProgress s = seq n (k - n) → q = seq k (total - k) →
  P s → P (fill q s).
Proof using P_admit.
  revert k s. induction q as [|i q IH]; intros k s Hinv Hf Hip Hq HP; simpl; [done|].
  pose proof (inv_k _ _ _ _ _ _ _ Hinv) as Hk.
  destruct (total - k) as [|m] eqn:E; [done|]. simpl in Hq. injection Hq as -> ->.
  rewrite Hf, Hip, length_seq. simpl. rewrite andb_true_r. case_bool_decide as Hc; [|done].
  rewrite set_add_fresh by (rewrite elem_of_seq; lia).
  assert (m = total - S k) as -> by lia. rewrite <- Hip.
  apply (IH (S k)).
  - apply admit_inv; [done|done|lia|lia].
  - done.
  - simpl. rewrite Hip. replace (S k - n) with (S (k - n)) by lia.
    rewrite seq_S. do 2 f_equal. lia.
  - done.
  - apply (P_admit k n); [done|done|lia|lia|done].
Qed.

Lemma main_loop_keeps fuel k s :
  inv k k [] s → failed s = false → P s → P (main_loop fuel s).2.
Proof using P_admit P_start P_resume.
  revert k s. induction fuel as [|fuel IH]; intros k s Hinv Hf HP; simpl; [done|].
  pose proof (inv_k _ _ _ _ _ _ _ Hinv) as Hk.
  pose proof (inv_queue _ _ _ _ _ _ _ Hinv) as Hq.
  assert (inProgress s = seq k (k - k)) as Hip
    by (rewrite Nat.sub_diag; by apply (head_idle toString tasks options k)).
  rewrite Hf, Hq, length_seq. simpl. rewrite andb_true_r.
  case_bool_decide as Hlt.
  - destruct (fill_inv toString tasks options (seq k (total - k)) k k s Hinv Hf Hip eq_refl)
      as (k' & Hk' & Hinv1 & Hf1 & Hip1 & Hfull).
    pose proof (fill_keeps (seq k (total - k)) k k s Hinv Hf Hip eq_refl HP) as HP1.
    rewrite Hip1, length_seq. case_bool_decide as Hadm.
    + pose proof (await_all_inv _ _ _ _ _ _ Hinv1 Hip1) as Hinv2.
      pose proof (await_all_keeps _ _ _ Hinv1 Hip1 HP1) as HP2.
      destruct (failed (await_all _)) eqn:Hf2.
      * destruct (inv_fe _ _ _ _ _ _ _ Hinv2 Hf2) as [e He]. by rewrite He.
      * by apply (IH k').
    + assert (k' = k) as -> by lia. by apply (IH k).
  - unfold TS.finish. by destruct (every _ _).
Qed.

Lemma asyncBatch_keeps fuel : P initial → P (asyncBatch fuel).2.
Proof using P_admit P_start P_resume.
  intros HP. apply (main_loop_keeps fuel 0); [apply inv_initial|done|done].
Qed.
End RunInduction.

(** ** The shapes of the steps *)

Section Shapes.
Context {T : Type} (toString : T → string).
Variable tasks : list (option (Task T)).
Variable options : AsyncBatchOptions.t.

Local Abbreviation failFast := (TS.failFast options).
Local Abbreviation finally_block := (TS.finally_block tasks options).
Local Abbreviation processTask := (TS.processTask toString tasks options).
Local Abbreviation resume := (TS.resume toString tasks options).
Local Abbreviation outcome := (outcome tasks).
Local Abbreviation fails := (fails tasks).
Local Abbreviation recorded := (recorded toString tasks).
Local Abbreviation inv := (inv toString tasks options).

(** The settlement of a task is discarded, stored, or aborts the run. *)
Lemma resume_cases k n p pend' s :
  inv k n (p.1 :: pend') s → outcome p.1 = p.2.2 →
  (failed s = true ∧ ¬ fails p.1 ∧
   resume p s = emit (Settle p.1) (set_inProgress (set_delete p.1 (inProgress s)) s)) ∨
  (failed s = false ∧ (failFast = true → ¬ fails p.1) ∧
   resume p s =
     finally_block p.1 (set_results (array_set p.1 (recorded p.1) (results s)) s)) ∨
  (failFast = true ∧ ∃ reason, outcome p.1 = Reject reason ∧
   resume p s =
     emit (Settle p.1)
       (set_inProgress (set_delete p.1 (inProgress s))
          (set_firstError (Some (toError toString reason)) (set_failed true s)))).
Proof.
  intros Hinv Ho. unfold TS.resume, TS.catch_block. rewrite <- Ho.
  destruct (outcome p.1) as [v|reason] eqn:E.
  - pose proof (resolve_not_fails tasks _ _ E) as Hok.
    destruct (failed s) eqn:Hf.
    + left. by rewrite finally_block_failed.
    + right. left. by rewrite (recorded_resolve toString tasks _ _ E).
  - destruct failFast eqn:Hff.
    + right. right. split; [done|]. exists reason. by rewrite finally_block_failed.
    + right. left. rewrite (recorded_reject toString tasks _ _ E).
      by rewrite (inv_ff _ _ _ _ _ _ _ Hinv Hff).
Qed.

(** A call of [processTask] returns at its guard, is suspended on the
    promise of its task, or settles at once when the task fails
    synchronously. *)
Lemma processTask_cases k n pend s :
  inv k n pend s → n < k →
  let s1 := emit (Dispatch n) (set_processing ({[n]} ∪ processing s) s) in
  (failed s = true ∧ processTask n s = (s, None)) ∨
  (failed s = false ∧
   ∃ d o, tasks !! n = Some (Some (Async d o)) ∧ processTask n s = (s1, Some (n, (d, o)))) ∨
  (failed s = false ∧ fails_synchronously tasks n ∧ fails n ∧ inv k (S n) (n :: pend) s1 ∧
   processTask n s = (resume (n, (0, outcome n)) s1, None)).
Proof.
  intros Hinv Hn s1. unfold TS.processTask. destruct (failed s) eqn:Hf; simpl; [by left|].
  right. rewrite bool_decide_false.
  2:{ intros Hin. apply (inv_proc _ _ _ _ _ _ _ Hinv) in Hin. lia. }
  assert (inv k (S n) (n :: pend) s1) as Hinv1.
  { eapply inv_perm; [|by apply dispatch_inv]. by rewrite Permutation_app_comm. }
  unfold TS.resume, outcome, fails, fails_synchronously.
  destruct (tasks !! n) as [[[d o|reason]|]|] eqn:Ht; simpl.
  - left. split; [done|]. by exists d, o.
  - right. split_and!; try done. unfold outcome. rewrite Ht. by eexists.
  - right. split_and!; try done. unfold outcome. rewrite Ht. by eexists.
  - right. split_and!; try done. unfold outcome. rewrite Ht. by eexists.
Qed.
(** What a settlement changes. *)
Lemma resume_observed k n p pend' s :
  inv k n (p.1 :: pend') s → outcome p.1 = p.2.2 →
  let s' := resume p s in
  settles (trace s') = settles (trace s) ++ [p.1] ∧
  dispatches (trace s') = dispatches (trace s) ∧
  queue s' = queue s ∧
  completed s' = (if failed s' then completed s else S (completed s)) ∧
  ((¬ fails p.1 ∧ failed s' = failed s ∧ firstError s' = firstError s) ∨
   (failFast = false ∧ failed s' = false ∧ firstError s' = firstError s) ∨
   (failFast = true ∧ failed s' = true ∧
    ∃ reason, outcome p.1 = Reject reason ∧
              firstError s' = Some (toError toString reason))).
Proof.
  intros Hinv Ho.
  destruct (resume_cases k n p pend' s Hinv Ho)
    as [(Hf & Hok & ->)|[(Hf & Hok & ->)|(Hff & reason & Hr & ->)]]; simpl.
  - rewrite Hf. push_events. split_and!; try done. by left.
  - rewrite finally_block_ok by done.
    assert (failFast = false ∨ ¬ fails p.1) as Hcase
      by (destruct failFast; [right; by apply Hok|by left]).
    destruct (TS.onProgress options); simpl; rewrite Hf; push_events;
      (split_and!; try done; destruct Hcase; [right; by left|by left]).
  - push_events. split_and!; try done.
    right. right. split_and!; try done. by exists reason.
Qed.
End Shapes.

(** ** The induction principle, by kind of step *)

Section StepInduction.
Context {T : Type} (toString : T → string).
Variable tasks : list (option (Task T)).
Variable options : AsyncBatchOptions.t.

Local Abbreviation total := (TS.total tasks).
Local Abbreviation initial := (TS.initial tasks).
Local Abbreviation resume := (TS.resume toString tasks options).
Local Abbreviation asyncBatch := (TS.asyncBatch toString tasks options).
Local Abbreviation limit := (Z.to_nat (TS.concurrency options)).
Local Abbreviation inv := (inv toString tasks options).

Variable P : State T → Prop.

Hypothesis P_initial : P initial.
Hypothesis P_admit : ∀ k n s,
  inv k n [] s → failed s = false → k < total → k - n < limit → P s →
  P (emit (Admit k)
       (set_inProgress (inProgress s ++ [k]) (set_queue (seq (S k) (total - S k)) s))).
Hypothesis P_dispatch : ∀ k n pend s,
  inv k n pend s → failed s = false → n < k → P s →
  P (emit (Dispatch n) (set_processing ({[n]} ∪ processing s) s)).
Hypothesis P_settle : ∀ k n p pend' s,
  inv k n (p.1 :: pend') s → outcome tasks p.1 = p.2.2 → P s → P (resume p s).

Lemma asyncBatch_keeps_steps fuel : P (asyncBatch fuel).2.
Proof using P_initial P_admit P_dispatch P_settle.
  apply asyncBatch_keeps; [done| | |done].
  - intros k n pend s Hinv Hn HP.
    destruct (processTask_cases toString tasks options k n pend s Hinv Hn)
      as [(Hf & ->)|[(Hf & d & o & Ht & ->)|(Hf & _ & _ & Hinv1 & ->)]]; simpl.
    + done.
    + by eapply P_dispatch.
    + eapply P_settle; [done|done|]. by eapply P_dispatch.
  - intros k n p pend' s Hinv Ht HP. eapply P_settle; [done| |done].
    by eapply outcome_async.
Qed.
End StepInduction.

(** ** Further invariants *)

Lemma elem_of_settles tr i : i ∈ settles tr ↔ Settle i ∈ tr.
Proof.
  unfold settles. rewrite list_elem_of_omap. split.
  - intros (e & He & Hi). destruct e; simplify_eq. done.
  - intros Hi. by exists (Settle i).
Qed.

Lemma task_error_fails {T} (toString : T → string) tasks i e :
  task_error toString tasks i = Some e →
  ∃ reason, outcome tasks i = Reject reason ∧ e = toError toString reason.
Proof. unfold task_error. destruct (outcome tasks i); intros [= <-]. by eexists. Qed.

Lemma task_error_None {T} (toString : T → string) tasks i :
  ¬ fails tasks i → task_error toString tasks i = None.
Proof.
  intros Hok. unfold task_error. destruct (outcome tasks i) eqn:E; [done|].
  destruct Hok. by eexists.
Qed.

Lemma task_error_reject {T} (toString : T → string) tasks i reason :
  outcome tasks i = Reject reason →
  task_error toString tasks i = Some (toError toString reason).
Proof. unfold task_error. by intros ->. Qed.

Section Coverage.
Context {T : Type} (toString : T → string).
Variable tasks : list (option (Task T)).
Variable options : AsyncBatchOptions.t.

Local Abbreviation concurrency := (TS.concurrency options).
Local Abbreviation failFast := (TS.failFast options).
Local Abbreviation total := (TS.total tasks).
Local Abbreviation asyncBatch := (TS.asyncBatch toString tasks options).
Local Abbreviation fails := (fails tasks).
Local Abbreviation task_error := (task_error toString tasks).
Local Abbreviation limit := (Z.to_nat concurrency).
Local Abbreviation inv := (inv toString tasks options).

(** [firstError] is the error of the failure that settled last. *)
Lemma firstError_is_last_failure fuel :
  firstError (asyncBatch fuel).2 =
    if failFast then last (omap task_error (settles (trace (asyncBatch fuel).2))) else None.
Proof.
  apply (asyncBatch_keeps_steps toString tasks options
           (λ s, firstError s =
                   if failFast then last (omap task_error (settles (trace s))) else None)).
  - simpl. by destruct failFast.
  - intros k n s _ _ _ _ HP. simpl. by push_events.
  - intros k n pend s _ _ _ HP. simpl. by push_events.
  - intros k n p pend' s Hinv Ho HP.
    destruct (resume_observed toString tasks options k n p pend' s Hinv Ho)
      as (Hs & _ & _ & _ & Hcases).
    rewrite Hs, omap_app. simpl.
    destruct Hcases as [(Hok & _ & ->)|[(Hff & _ & ->)|(Hff & _ & reason & Hr & ->)]].
    + rewrite (task_error_None toString tasks _ Hok). by rewrite app_nil_r.
    + rewrite Hff in *. done.
    + rewrite Hff, (task_error_reject toString tasks _ _ Hr). by rewrite last_snoc.
Qed.

(** The counter of completed tasks never runs ahead of the settlements. *)
Lemma completed_le_settles fuel :
  completed (asyncBatch fuel).2 ≤ length (settles (trace (asyncBatch fuel).2)).
Proof.
  apply (asyncBatch_keeps_steps toString tasks options
           (λ s, completed s ≤ length (settles (trace s)))).
  - simpl. lia.
  - intros k n s _ _ _ _ HP. simpl. push_events. lia.
  - intros k n pend s _ _ _ HP. simpl. push_events. lia.
  - intros k n p pend' s Hinv Ho HP.
    destruct (resume_observed toString tasks options k n p pend' s Hinv Ho)
      as (Hs & _ & _ & Hc & _).
    rewrite Hs, Hc, length_app. simpl. destruct (failed _); lia.
Qed.

(** The settled tasks are tasks of the list. *)
Lemma settles_in_range fuel i :
  i ∈ settles (trace (asyncBatch fuel).2) → i < total.
Proof.
  destruct (asyncBatch fuel) as [r s'] eqn:Hrun. simpl. intros Hi.
  destruct (asyncBatch_inv _ _ _ _ _ _ Hrun) as (k' & Hinv & _).
  pose proof (inv_exec _ _ _ _ _ _ _ Hinv) as He. rewrite app_nil_r in He.
  destruct (inv_disp _ _ _ _ _ _ _ Hinv) as (d & Hd & Hdn & _).
  pose proof (inv_k _ _ _ _ _ _ _ Hinv).
  rewrite <- He, Hd, elem_of_seq in Hi. lia.
Qed.

(** An aborted run has seen a task fail. *)
Lemma failed_has_failure fuel :
  failed (asyncBatch fuel).2 = true →
  failFast = true ∧
  ∃ e, firstError (asyncBatch fuel).2 = Some e ∧
       last (omap task_error (settles (trace (asyncBatch fuel).2))) = Some e.
Proof.
  intros Hf. pose proof (firstError_is_last_failure fuel) as Hfe.
  destruct (asyncBatch fuel) as [r s'] eqn:Hrun. simpl in *.
  destruct (asyncBatch_inv _ _ _ _ _ _ Hrun) as (k' & Hinv & _).
  destruct failFast eqn:Hff.
  - split; [done|]. destruct (inv_fe _ _ _ _ _ _ _ Hinv Hf) as [e He].
    exists e. by rewrite <- Hfe.
  - pose proof (inv_ff _ _ _ _ _ _ _ Hinv Hff). congruence.
Qed.

(** A run that has not aborted and has enough iterations ends with the
    epilogue applied to the settled results. *)
Lemma unaborted_result fuel :
  (1 ≤ concurrency)%Z → total < fuel → failed (asyncBatch fuel).2 = false →
  (asyncBatch fuel).1 = epilogue (settled_results toString tasks).
Proof.
  intros Hc Hfuel Hf.
  pose proof (asyncBatch_terminates toString tasks options fuel Hc Hfuel) as Hterm.
  destruct (asyncBatch fuel) as [r s'] eqn:Hrun. simpl in *.
  destruct (asyncBatch_inv _ _ _ _ _ _ Hrun) as (k' & Hinv & Hr).
  unfold epilogue, settled_results.
  destruct r as [rs|[] e|]; try done.
  - destruct Hr as (_ & -> & -> & Hno).
    pose proof (final_results toString tasks options s' Hinv Hf) as Hres.
    unfold TS.total in Hres. by rewrite <- Hres, Hno.
  - destruct Hr. congruence.
  - destruct Hr as (_ & -> & Hev & ->).
    pose proof (final_results toString tasks options s' Hinv Hf) as Hres.
    unfold TS.total in Hres. by rewrite <- Hres, Hev.
Qed.
(** Between two waves, under failFast, no admitted task has failed. *)
Lemma settled_before_ok k n s i :
  inv k n [] s → failed s = false → failFast = true → i < n → ¬ fails i.
Proof.
  intros Hinv Hf Hff Hi.
  destruct (inv_quiet _ _ _ _ _ _ _ Hinv Hff) as [_ Hno]. apply (Hno Hf).
  apply elem_of_settles.
  pose proof (inv_exec _ _ _ _ _ _ _ Hinv) as He. rewrite app_nil_r in He.
  destruct (inv_disp _ _ _ _ _ _ _ Hinv) as (d & Hd & _ & Hdn).
  rewrite <- He, Hd, (Hdn Hf), elem_of_seq. lia.
Qed.

(** Under failFast, the admitted tasks reach at most one window beyond the
    tasks known not to fail. *)
Lemma admitted_within_window fuel :
  failFast = true →
  ∃ k0, (∀ i, i < k0 → ¬ fails i) ∧
        total - length (queue (asyncBatch fuel).2) ≤ k0 + limit.
Proof.
  apply (asyncBatch_keeps_steps toString tasks options
           (λ s, failFast = true →
                 ∃ k0, (∀ i, i < k0 → ¬ fails i) ∧ total - length (queue s) ≤ k0 + limit)).
  - intros _. exists 0. split; [lia|]. simpl. rewrite queue_indices, length_seq.
    unfold TS.total. lia.
  - intros k n s Hinv Hf Hk Hroom _ Hff. exists n. split.
    + intros i Hi. by eapply settled_before_ok.
    + simpl. rewrite length_seq. lia.
  - intros k n pend s _ _ _ HP. done.
  - intros k n p pend' s Hinv Ho HP.
    destruct (resume_observed toString tasks options k n p pend' s Hinv Ho)
      as (_ & _ & Hq & _). by rewrite Hq.
Qed.

(** Under failFast, a task that fails synchronously is the last one that
    is dispatched. *)
Lemma synchronous_failure_ends_dispatch fuel :
  failFast = true →
  ∀ i, fails_synchronously tasks i → i ∈ dispatches (trace (asyncBatch fuel).2) →
       failed (asyncBatch fuel).2 = true ∧
       dispatches (trace (asyncBatch fuel).2) = seq 0 (S i).
Proof.
  intros Hff.
  apply (asyncBatch_keeps toString tasks options
           (λ s, ∀ i, fails_synchronously tasks i → i ∈ dispatches (trace s) →
                      failed s = true ∧ dispatches (trace s) = seq 0 (S i))).
  - intros k n s _ _ _ _ HP i Hi. simpl. push_events. by apply HP.
  - intros k n pend s Hinv Hn HP.
    destruct (inv_disp _ _ _ _ _ _ _ Hinv) as (d & Hd & _ & Hdn).
    destruct (processTask_cases toString tasks options k n pend s Hinv Hn)
      as [(Hf & ->)|[(Hf & d' & o & Ht & ->)|(Hf & Hsync & Hfail & Hinv1 & ->)]]; simpl.
    + done.
    + intros i Hi. push_events. intros [Hin| ->%list_elem_of_singleton]%elem_of_app.
      * destruct (HP i Hi Hin). congruence.
      * by destruct (Hi d' o).
    + destruct (resume_observed toString tasks options k (S n) (n, (0, outcome tasks n)) pend _
                  Hinv1 eq_refl) as (_ & Hdisp & _ & _ & Hcases).
      simpl in *. intros i Hi. rewrite Hdisp. push_events.
      rewrite Hd, (Hdn Hf).
      intros [Hin| ->%list_elem_of_singleton]%elem_of_app.
      * rewrite <- (Hdn Hf), <- Hd in Hin. destruct (HP i Hi Hin). congruence.
      * split; [|symmetry; apply (seq_S n 0)].
        destruct Hcases as [(Hok & _)|[(Hff' & _)|(_ & ? & _)]]; [done|congruence|done].
  - intros k n p pend' s Hinv Ht HP i Hi.
    destruct (resume_observed toString tasks options k n p pend' s Hinv
                (outcome_async tasks _ _ _ Ht)) as (_ & Hdisp & _ & _ & Hcases).
    simpl in *. rewrite Hdisp. intros Hin. destruct (HP i Hi Hin) as [Hf Hseq].
    split; [|done].
    destruct Hcases as [(_ & -> & _)|[(Hff' & _)|(_ & ? & _)]]; [done|congruence|done].
  - intros i _ Hin. by apply elem_of_nil in Hin.
Qed.

(** With a concurrency of one, the tasks settle in the order in which
    they are dispatched. *)
Lemma sequential_settles fuel :
  concurrency = 1%Z →
  settles (trace (asyncBatch fuel).2) `prefix_of` dispatches (trace (asyncBatch fuel).2).
Proof.
  intros Hc.
  apply (asyncBatch_keeps_steps toString tasks options
           (λ s, settles (trace s) `prefix_of` dispatches (trace s))).
  - done.
  - intros k n s _ _ _ _ HP. simpl. by push_events.
  - intros k n pend s _ _ _ HP. simpl. push_events. by apply prefix_app_r.
  - intros k n p pend' s Hinv Ho [l Hl].
    destruct (resume_observed toString tasks options k n p pend' s Hinv Ho)
      as (Hs & Hd & _).
    rewrite Hs, Hd.
    pose proof (inv_room _ _ _ _ _ _ _ Hinv) as Hroom. rewrite Hc in Hroom. simpl in Hroom.
    assert (pend' = []) as -> by (destruct pend'; [done|simpl in Hroom; lia]).
    pose proof (inv_exec _ _ _ _ _ _ _ Hinv) as He. rewrite Hl in He.
    apply Permutation_app_inv_l, Permutation_singleton_r in He as ->. by rewrite <- Hl.
Qed.
End Coverage.

(** ** More iterations *)

Lemma main_loop_more {T} (toString : T → string) tasks options fuel s r s' :
  TS.main_loop toString tasks options fuel s = (r, s') → r ≠ OutOfFuel →
  TS.main_loop toString tasks options (S fuel) s = (r, s').
Proof.
  revert s. induction fuel as [|fuel IH]; intros s Hrun Hne.
  { simpl in Hrun. by injection Hrun as <- <-. }
  change (TS.main_loop toString tasks options (S fuel) s) with
    (if bool_decide (0 < length (queue s)) && negb (failed s) then
       let s1 := TS.fill options (queue s) s in
       if bool_decide (0 < length (inProgress s1)) then
         let s2 := TS.await_all toString tasks options s1 in
         match failed s2, firstError s2 with
         | true, Some e => (Threw ThrowFirstError e, s2)
         | _, _ => TS.main_loop toString tasks options fuel s2
         end
       else TS.main_loop toString tasks options fuel s1
     else TS.finish s) in Hrun.
  change (TS.main_loop toString tasks options (S (S fuel)) s) with
    (if bool_decide (0 < length (queue s)) && negb (failed s) then
       let s1 := TS.fill options (queue s) s in
       if bool_decide (0 < length (inProgress s1)) then
         let s2 := TS.await_all toString tasks options s1 in
         match failed s2, firstError s2 with
         | true, Some e => (Threw ThrowFirstError e, s2)
         | _, _ => TS.main_loop toString tasks options (S fuel) s2
         end
       else TS.main_loop toString tasks options (S fuel) s1
     else TS.finish s).
  destruct (_ && _); [|done]. cbv zeta in *.
  destruct (bool_decide _); [|by apply IH].
  destruct (failed _); [destruct (firstError _)|]; try done; by apply IH.
Qed.

Lemma main_loop_enough {T} (toString : T → string) tasks options fuel fuel' s :
  (TS.main_loop toString tasks options fuel s).1 ≠ OutOfFuel → fuel ≤ fuel' →
  TS.main_loop toString tasks options fuel' s = TS.main_loop toString tasks options fuel s.
Proof.
  intros Hne Hle. induction Hle as [|fuel' Hle IH]; [done|].
  destruct (TS.main_loop toString tasks options fuel s) as [r s'] eqn:Hrun.
  by apply main_loop_more.
Qed.

(** * Further properties, stated *)

(** X1: with a concurrency of at least one the call ends: one iteration
    more than there are tasks is enough, and further iterations change
    neither the outcome nor the final state. *)
Theorem enough_iterations_settle_the_run {T} (toString : T → string) tasks options fuel fuel' :
  (1 ≤ TS.concurrency options)%Z → length tasks < fuel → fuel ≤ fuel' →
  (TS.asyncBatch toString tasks options fuel).1 ≠ OutOfFuel ∧
  TS.asyncBatch toString tasks options fuel' = TS.asyncBatch toString tasks options fuel.
Proof.
  intros Hc Hfuel Hle.
  pose proof (asyncBatch_terminates toString tasks options fuel Hc Hfuel) as Hterm.
  split; [done|]. by apply main_loop_enough.
Qed.

(** X2: a run that goes on after errors is the epilogue applied to the
    array that holds, for each task in input order, its value or its
    normalised error: neither the concurrency nor the settle times matter. *)
Theorem continue_on_error_closed_form {T} (toString : T → string) tasks options fuel :
  TS.failFast options = false → (1 ≤ TS.concurrency options)%Z → length tasks < fuel →
  (TS.asyncBatch toString tasks options fuel).1 = epilogue (settled_results toString tasks).
Proof.
  intros Hff Hc Hfuel. apply unaborted_result; try done.
  destruct (TS.asyncBatch toString tasks options fuel) as [r s'] eqn:Hrun. simpl.
  destruct (asyncBatch_inv _ _ _ _ _ _ Hrun) as (k' & Hinv & _).
  by apply (inv_ff _ _ _ _ _ _ _ Hinv).
Qed.

(** X3: two runs that go on after errors end the same way when their
    tasks have the same outcomes index by index, whatever the (valid)
    concurrency of each and whenever their promises settle. *)
Theorem continue_on_error_ignores_schedule {T} (toString : T → string)
    tasks tasks' options options' fuel fuel' :
  TS.failFast options = false → TS.failFast options' = false →
  (1 ≤ TS.concurrency options)%Z → (1 ≤ TS.concurrency options')%Z →
  length tasks < fuel → length tasks' < fuel' →
  length tasks = length tasks' → (∀ i, outcome tasks i = outcome tasks' i) →
  (TS.asyncBatch toString tasks options fuel).1 =
  (TS.asyncBatch toString tasks' options' fuel').1.
Proof.
  intros Hff Hff' Hc Hc' Hfuel Hfuel' Hlen Hout.
  rewrite !unaborted_result; try done.
  - f_equal. unfold settled_results. rewrite Hlen. apply list_fmap_ext.
    intros _ i _. unfold recorded. by rewrite Hout.
  - destruct (TS.asyncBatch toString tasks' options' fuel') as [r s'] eqn:Hrun. simpl.
    destruct (asyncBatch_inv _ _ _ _ _ _ Hrun) as (k' & Hinv & _).
    by apply (inv_ff _ _ _ _ _ _ _ Hinv).
  - destruct (TS.asyncBatch toString tasks options fuel) as [r s'] eqn:Hrun. simpl.
    destruct (asyncBatch_inv _ _ _ _ _ _ Hrun) as (k' & Hinv & _).
    by apply (inv_ff _ _ _ _ _ _ _ Hinv).
Qed.

(** X4: failFast changes nothing when no task fails: the run ends as a
    run that goes on after errors does, with the epilogue applied to the
    values of the tasks in input order. *)
Theorem fail_fast_without_failure_is_inert {T} (toString : T → string) tasks options fuel :
  TS.failFast options = true → (1 ≤ TS.concurrency options)%Z → length tasks < fuel →
  (∀ i, i < length tasks → ¬ fails tasks i) →
  (TS.asyncBatch toString tasks options fuel).1 = epilogue (settled_results toString tasks).
Proof.
  intros Hff Hc Hfuel Hok. apply unaborted_result; try done.
  destruct (failed (TS.asyncBatch toString tasks options fuel).2) eqn:Hf; [|done].
  destruct (failed_has_failure toString tasks options fuel Hf) as (_ & e & _ & Hlast).
  apply last_Some_elem_of, list_elem_of_omap in Hlast as (i & Hi & He).
  apply task_error_fails in He as (reason & Ho & _).
  destruct (Hok i); [by eapply settles_in_range|by exists reason].
Qed.

(** X5: under failFast, as soon as some task of the list fails the run
    throws, and what it throws is the error of the failure that settled
    last before the wave was over. *)
Theorem fail_fast_throws_last_settled_failure {T} (toString : T → string) tasks options fuel i :
  TS.failFast options = true → (1 ≤ TS.concurrency options)%Z → length tasks < fuel →
  i < length tasks → fails tasks i →
  ∃ e, (TS.asyncBatch toString tasks options fuel).1 = Threw ThrowFirstError e ∧
       last (omap (task_error toString tasks)
               (settles (trace (TS.asyncBatch toString tasks options fuel).2))) = Some e.
Proof.
  intros Hff Hc Hfuel Hi Hfail.
  pose proof (asyncBatch_terminates toString tasks options fuel Hc Hfuel) as Hterm.
  pose proof (failed_has_failure toString tasks options fuel) as Hlast.
  destruct (TS.asyncBatch toString tasks options fuel) as [r s'] eqn:Hrun. simpl in *.
  destruct (asyncBatch_inv _ _ _ _ _ _ Hrun) as (k' & Hinv & Hr).
  assert (failed s' = false → k' = length tasks → False) as Habs.
  { intros Hf ->. by apply (settled_before_ok toString tasks options _ _ _ i Hinv Hf Hff). }
  destruct r as [rs|[] e|]; try done.
  - destruct Hr as (Hf & Hk & _). by destruct Habs.
  - destruct Hr as [Hf He]. exists e. split; [done|].
    destruct (Hlast Hf) as (_ & e' & He' & ?). congruence.
  - destruct Hr as (Hf & Hk & _). by destruct Habs.
Qed.

(** X6: the call throws the error of a task only under failFast, and the
    error is then the normalised failure of a task of the list that has
    settled: it is never made up. *)
Theorem thrown_task_error_comes_from_a_task {T} (toString : T → string) tasks options fuel e :
  (TS.asyncBatch toString tasks options fuel).1 = Threw ThrowFirstError e →
  TS.failFast options = true ∧
  ∃ i reason, i < length tasks ∧
              Settle i ∈ trace (TS.asyncBatch toString tasks options fuel).2 ∧
              outcome tasks i = Reject reason ∧ e = toError toString reason.
Proof.
  intros Hthrow.
  pose proof (failed_has_failure toString tasks options fuel) as Hlast.
  pose proof (settles_in_range toString tasks options fuel) as Hrange.
  destruct (TS.asyncBatch toString tasks options fuel) as [r s'] eqn:Hrun. simpl in *. subst r.
  destruct (asyncBatch_inv _ _ _ _ _ _ Hrun) as (k' & Hinv & Hf & He).
  destruct (Hlast Hf) as (Hff & e' & He' & Hl). split; [done|].
  assert (e' = e) as -> by congruence.
  apply last_Some_elem_of, list_elem_of_omap in Hl as (i & Hi & Herr).
  apply task_error_fails in Herr as (reason & Ho & ->).
  exists i, reason. split_and!; try done; [by apply Hrange|by apply elem_of_settles].
Qed.

(** X7: in every run, aborted or not, the calls of the progress callback
    are onProgress(1, total), ..., onProgress(m, total) for some m that is
    at most the number of tasks; without a callback there is no call. *)
Theorem progress_counts_up {T} (toString : T → string) tasks options fuel :
  ∃ m, m ≤ length tasks ∧
       progress_calls (trace (TS.asyncBatch toString tasks options fuel).2) =
         if TS.onProgress options is Some _
         then (λ c, (c, length tasks)) <$> seq 1 m else [].
Proof.
  pose proof (completed_le_settles toString tasks options fuel) as Hle.
  destruct (TS.asyncBatch toString tasks options fuel) as [r s'] eqn:Hrun. simpl in *.
  destruct (asyncBatch_inv _ _ _ _ _ _ Hrun) as (k' & Hinv & _).
  exists (completed s'). split; [|apply (inv_progress _ _ _ _ _ _ _ Hinv)].
  pose proof (pending_count _ _ _ (inv_exec _ _ _ _ _ _ _ Hinv)) as Hcount.
  destruct (inv_disp _ _ _ _ _ _ _ Hinv) as (d & Hd & Hdk & _).
  pose proof (inv_k _ _ _ _ _ _ _ Hinv) as Hk. unfold TS.total in Hk.
  rewrite Hd, length_seq in Hcount. simpl in Hcount. lia.
Qed.

(** X8: when the call returns a list or throws the aggregate error, every
    task of the list has been invoked exactly once, in input order, and
    has settled exactly once. *)
Theorem unaborted_run_runs_every_task_once {T} (toString : T → string) tasks options fuel :
  ((∃ rs, (TS.asyncBatch toString tasks options fuel).1 = Returned rs) ∨
   (∃ e, (TS.asyncBatch toString tasks options fuel).1 = Threw ThrowAllFailed e)) →
  dispatches (trace (TS.asyncBatch toString tasks options fuel).2) = seq 0 (length tasks) ∧
  settles (trace (TS.asyncBatch toString tasks options fuel).2) ≡ₚ seq 0 (length tasks).
Proof.
  destruct (TS.asyncBatch toString tasks options fuel) as [r s'] eqn:Hrun. simpl.
  destruct (asyncBatch_inv _ _ _ _ _ _ Hrun) as (k' & Hinv & Hr).
  intros Hend. assert (failed s' = false ∧ k' = length tasks) as [Hf ->].
  { destruct Hend as [[rs ->]|[e ->]]; by destruct Hr as (? & ? & _). }
  pose proof (inv_exec _ _ _ _ _ _ _ Hinv) as He. rewrite app_nil_r in He.
  destruct (inv_disp _ _ _ _ _ _ _ Hinv) as (d & Hd & _ & Hdn).
  rewrite Hd, (Hdn Hf) in *. done.
Qed.

(** X9: under failFast, a failing task bounds how far the run goes: no
    task whose index is the index of a failing task plus the concurrency,
    or more, is ever invoked. *)
Theorem fail_fast_stops_within_the_wave {T} (toString : T → string) tasks options fuel i j :
  TS.failFast options = true → fails tasks i →
  j ∈ dispatches (trace (TS.asyncBatch toString tasks options fuel).2) →
  j < i + Z.to_nat (TS.concurrency options).
Proof.
  intros Hff Hfail.
  destruct (admitted_within_window toString tasks options fuel Hff) as (k0 & Hk0 & Hwin).
  destruct (TS.asyncBatch toString tasks options fuel) as [r s'] eqn:Hrun. simpl in *.
  destruct (asyncBatch_inv _ _ _ _ _ _ Hrun) as (k' & Hinv & _).
  destruct (inv_disp _ _ _ _ _ _ _ Hinv) as (d & Hd & Hdk & _).
  pose proof (inv_k _ _ _ _ _ _ _ Hinv) as Hk.
  rewrite (inv_queue _ _ _ _ _ _ _ Hinv), length_seq in Hwin.
  rewrite Hd, elem_of_seq. intros [_ Hj].
  assert (k0 ≤ i) by (destruct (decide (k0 ≤ i)); [done|]; destruct (Hk0 i); [lia|done]).
  lia.
Qed.

(** X10: under failFast, a task that throws when it is called, and an
    index without a task, stop the dispatch at once: no task with a larger
    index is ever invoked, not even a task admitted in the same wave. *)
Theorem synchronous_failure_stops_dispatch {T} (toString : T → string) tasks options fuel i j :
  TS.failFast options = true → fails_synchronously tasks i →
  j ∈ dispatches (trace (TS.asyncBatch toString tasks options fuel).2) → j ≤ i.
Proof.
  intros Hff Hsync Hj.
  pose proof (synchronous_failure_ends_dispatch toString tasks options fuel Hff i Hsync) as Hend.
  destruct (TS.asyncBatch toString tasks options fuel) as [r s'] eqn:Hrun. cbn [fst snd] in *.
  destruct (asyncBatch_inv _ _ _ _ _ _ Hrun) as (k' & Hinv & _).
  destruct (inv_disp _ _ _ _ _ _ _ Hinv) as (d & Hd & _).
  destruct (decide (i < d)) as [Hi|Hi].
  - destruct Hend as [_ Hseq]; [rewrite Hd, elem_of_seq; lia|].
    rewrite Hseq, elem_of_seq in Hj. lia.
  - rewrite Hd, elem_of_seq in Hj. lia.
Qed.

(** X11: with a concurrency of one, the tasks settle one after the other
    in input order, whatever their settle times: the sequence of the
    settlements is the sequence of the dispatches. *)
Theorem concurrency_one_settles_in_order {T} (toString : T → string) tasks options fuel :
  TS.concurrency options = 1%Z →
  settles (trace (TS.asyncBatch toString tasks options fuel).2) =
  dispatches (trace (TS.asyncBatch toString tasks options fuel).2).
Proof.
  intros Hc. pose proof (sequential_settles toString tasks options fuel Hc) as Hpre.
  destruct (TS.asyncBatch toString tasks options fuel) as [r s'] eqn:Hrun. simpl in *.
  destruct (asyncBatch_inv _ _ _ _ _ _ Hrun) as (k' & Hinv & _).
  pose proof (pending_count _ _ _ (inv_exec _ _ _ _ _ _ _ Hinv)) as Hcount. simpl in Hcount.
  apply prefix_length_eq; [done|lia].
Qed.

(** X12: an index of the task list that holds no task (null or undefined)
    does not break the run: in a returned list this index holds an error
    whose message is "Task at index i is undefined", with i the index. *)
Theorem missing_task_is_reported_at_its_index {T} (toString : T → string)
    tasks options fuel rs i :
  (TS.asyncBatch toString tasks options fuel).1 = Returned rs →
  tasks !! i = Some None →
  rs !! i =
    Some (Some (ErrorObj (mkError ("Task at index " +:+ pretty i +:+ " is undefined")))).
Proof.
  destruct (TS.asyncBatch toString tasks options fuel) as [r s'] eqn:Hrun. simpl.
  intros -> Ht.
  destruct (asyncBatch_inv _ _ _ _ _ _ Hrun) as (k' & Hinv & Hf & -> & -> & _).
  rewrite (final_lookup _ _ _ _ _ Hinv Hf) by (by apply lookup_lt_Some in Ht).
  rewrite (recorded_reject toString tasks i (TS.undefined_task i)); [done|].
  unfold outcome. by rewrite Ht.
Qed.

(** * The further properties on concrete runs *)

Lemma enough_iterations_settle_the_run_witness :
  let tasks := [resolves 0 1; rejects 0 "X"] in
  ((1 ≤ TS.concurrency no_options)%Z ∧ length tasks < 3 ∧ 3 ≤ 9) ∧
  (TS.asyncBatch showZ tasks no_options 3).1 ≠ OutOfFuel ∧
  TS.asyncBatch showZ tasks no_options 9 = TS.asyncBatch showZ tasks no_options 3.
Proof.
  split; [split_and!; [vm_compute; discriminate|simpl; lia|lia]|].
  apply (enough_iterations_settle_the_run showZ [resolves 0 1; rejects 0 "X"] no_options 3 9).
  - vm_compute; discriminate.
  - simpl; lia.
  - lia.
Defined.

Lemma continue_on_error_closed_form_witness :
  let tasks := [resolves 0 1; rejects 0 "X"; resolves 0 3] in
  (TS.failFast no_options = false ∧ (1 ≤ TS.concurrency no_options)%Z ∧ length tasks < 4) ∧
  (TS.asyncBatch showZ tasks no_options 4).1 = epilogue (settled_results showZ tasks).
Proof.
  split; [split_and!; [reflexivity|vm_compute; discriminate|simpl; lia]|].
  apply (continue_on_error_closed_form showZ
           [resolves 0 1; rejects 0 "X"; resolves 0 3] no_options 4).
  - reflexivity.
  - vm_compute; discriminate.
  - simpl; lia.
Defined.

Lemma continue_on_error_ignores_schedule_witness :
  let tasks := [resolves 50 1; rejects 30 "X"; resolves 10 3] in
  let tasks' := [resolves 0 1; rejects 0 "X"; resolves 0 3] in
  let options := AsyncBatchOptions.mk (Some 1%Z) None None in
  let options' := AsyncBatchOptions.mk (Some 2%Z) (Some false) (Some callback) in
  (TS.failFast options = false ∧ TS.failFast options' = false ∧
   length tasks = length tasks' ∧ ∀ i, outcome tasks i = outcome tasks' i) ∧
  (TS.asyncBatch showZ tasks options 4).1 = (TS.asyncBatch showZ tasks' options' 5).1.
Proof.
  assert (∀ i, outcome [resolves 50 1; rejects 30 "X"; resolves 10 3] i =
               outcome [resolves 0 1; rejects 0 "X"; resolves 0 3] i) as Hout
    by (intros [|[|[|i]]]; reflexivity).
  split; [split_and!; [reflexivity|reflexivity|reflexivity|exact Hout]|].
  apply (continue_on_error_ignores_schedule showZ
           [resolves 50 1; rejects 30 "X"; resolves 10 3]
           [resolves 0 1; rejects 0 "X"; resolves 0 3]
           (AsyncBatchOptions.mk (Some 1%Z) None None)
           (AsyncBatchOptions.mk (Some 2%Z) (Some false) (Some callback)) 4 5).
  - reflexivity.
  - reflexivity.
  - vm_compute; discriminate.
  - vm_compute; discriminate.
  - simpl; lia.
  - simpl; lia.
  - reflexivity.
  - exact Hout.
Defined.

Lemma fail_fast_without_failure_is_inert_witness :
  let tasks := [resolves 5 1; resolves 0 2] in
  let options := AsyncBatchOptions.mk None (Some true) None in
  (TS.failFast options = true ∧ (1 ≤ TS.concurrency options)%Z ∧ length tasks < 3 ∧
   ∀ i, i < length tasks → ¬ fails tasks i) ∧
  (TS.asyncBatch showZ tasks options 3).1 = epilogue (settled_results showZ tasks).
Proof.
  assert (∀ i, i < length [resolves 5 1; resolves 0 2] →
               ¬ fails [resolves 5 1; resolves 0 2] i) as Hok.
  { intros [|[|i]] Hi [reason Hr]; [discriminate Hr|discriminate Hr|simpl in Hi; lia]. }
  split; [split_and!; [reflexivity|vm_compute; discriminate|simpl; lia|exact Hok]|].
  apply (fail_fast_without_failure_is_inert showZ [resolves 5 1; resolves 0 2]
           (AsyncBatchOptions.mk None (Some true) None) 3).
  - reflexivity.
  - vm_compute; discriminate.
  - simpl; lia.
  - exact Hok.
Defined.

Lemma fail_fast_throws_last_settled_failure_witness :
  let tasks := [rejects 0 "A"; rejects 0 "B"] in
  let options := AsyncBatchOptions.mk None (Some true) None in
  (TS.failFast options = true ∧ (1 ≤ TS.concurrency options)%Z ∧ length tasks < 3 ∧
   0 < length tasks ∧ fails tasks 0) ∧
  ∃ e, (TS.asyncBatch showZ tasks options 3).1 = Threw ThrowFirstError e ∧
       last (omap (task_error showZ tasks)
               (settles (trace (TS.asyncBatch showZ tasks options 3).2))) = Some e.
Proof.
  assert (fails [rejects 0 "A"; rejects 0 "B"] 0) as Hfail by (eexists; reflexivity).
  split; [split_and!; [reflexivity|vm_compute; discriminate|simpl; lia|simpl; lia|exact Hfail]|].
  apply (fail_fast_throws_last_settled_failure showZ [rejects 0 "A"; rejects 0 "B"]
           (AsyncBatchOptions.mk None (Some true) None) 3 0).
  - reflexivity.
  - vm_compute; discriminate.
  - simpl; lia.
  - simpl; lia.
  - exact Hfail.
Defined.

Lemma thrown_task_error_comes_from_a_task_witness :
  let tasks := [resolves 0 1; rejects 0 "Task failed"; resolves 0 3] in
  let options := AsyncBatchOptions.mk None (Some true) None in
  (TS.asyncBatch showZ tasks options 4).1 = Threw ThrowFirstError (mkError "Task failed") ∧
  TS.failFast options = true ∧
  ∃ i reason, i < length tasks ∧
              Settle i ∈ trace (TS.asyncBatch showZ tasks options 4).2 ∧
              outcome tasks i = Reject reason ∧ mkError "Task failed" = toError showZ reason.
Proof.
  split; [vm_compute; reflexivity|].
  apply (thrown_task_error_comes_from_a_task showZ
           [resolves 0 1; rejects 0 "Task failed"; resolves 0 3]
           (AsyncBatchOptions.mk None (Some true) None) 4 (mkError "Task failed")).
  vm_compute; reflexivity.
Defined.

Lemma unaborted_run_runs_every_task_once_witness :
  let tasks := [resolves 50 1; resolves 30 2; resolves 10 3] in
  let options := AsyncBatchOptions.mk (Some 2%Z) None None in
  (∃ rs, (TS.asyncBatch showZ tasks options 4).1 = Returned rs) ∧
  dispatches (trace (TS.asyncBatch showZ tasks options 4).2) = seq 0 (length tasks) ∧
  settles (trace (TS.asyncBatch showZ tasks options 4).2) ≡ₚ seq 0 (length tasks).
Proof.
  assert (∃ rs, (TS.asyncBatch showZ [resolves 50 1; resolves 30 2; resolves 10 3]
                   (AsyncBatchOptions.mk (Some 2%Z) None None) 4).1 = Returned rs) as Hret
    by (eexists; vm_compute; reflexivity).
  split; [exact Hret|].
  apply (unaborted_run_runs_every_task_once showZ
           [resolves 50 1; resolves 30 2; resolves 10 3]
           (AsyncBatchOptions.mk (Some 2%Z) None None) 4).
  left. exact Hret.
Defined.

Lemma fail_fast_stops_within_the_wave_witness :
  let tasks := [resolves 0 1; rejects 0 "X"; resolves 0 3; resolves 0 4; resolves 0 5] in
  let options := AsyncBatchOptions.mk (Some 2%Z) (Some true) None in
  (TS.failFast options = true ∧ fails tasks 1 ∧
   1 ∈ dispatches (trace (TS.asyncBatch showZ tasks options 6).2)) ∧
  1 < 1 + Z.to_nat (TS.concurrency options).
Proof.
  assert (fails [resolves 0 1; rejects 0 "X"; resolves 0 3; resolves 0 4; resolves 0 5] 1)
    as Hfail by (eexists; reflexivity).
  assert (1 ∈ dispatches (trace (TS.asyncBatch showZ
            [resolves 0 1; rejects 0 "X"; resolves 0 3; resolves 0 4; resolves 0 5]
            (AsyncBatchOptions.mk (Some 2%Z) (Some true) None) 6).2)) as Hin
    by (vm_compute; apply list_elem_of_In; right; left; reflexivity).
  split; [split_and!; [reflexivity|exact Hfail|exact Hin]|].
  apply (fail_fast_stops_within_the_wave showZ
           [resolves 0 1; rejects 0 "X"; resolves 0 3; resolves 0 4; resolves 0 5]
           (AsyncBatchOptions.mk (Some 2%Z) (Some true) None) 6 1 1).
  - reflexivity.
  - exact Hfail.
  - exact Hin.
Defined.

Lemma synchronous_failure_stops_dispatch_witness :
  let tasks := [resolves 0 1; Some (Throws (Plain 7%Z)); resolves 0 3] in
  let options := AsyncBatchOptions.mk None (Some true) None in
  (TS.failFast options = true ∧ fails_synchronously tasks 1 ∧
   0 ∈ dispatches (trace (TS.asyncBatch showZ tasks options 4).2)) ∧
  0 ≤ 1.
Proof.
  assert (fails_synchronously [resolves 0 1; Some (Throws (Plain 7%Z)); resolves 0 3] 1)
    as Hsync by (intros d o; discriminate).
  assert (0 ∈ dispatches (trace (TS.asyncBatch showZ
            [resolves 0 1; Some (Throws (Plain 7%Z)); resolves 0 3]
            (AsyncBatchOptions.mk None (Some true) None) 4).2)) as Hin
    by (vm_compute; apply list_elem_of_In; left; reflexivity).
  split; [split_and!; [reflexivity|exact Hsync|exact Hin]|].
  apply (synchronous_failure_stops_dispatch showZ
           [resolves 0 1; Some (Throws (Plain 7%Z)); resolves 0 3]
           (AsyncBatchOptions.mk None (Some true) None) 4 1 0).
  - reflexivity.
  - exact Hsync.
  - exact Hin.
Defined.

Lemma concurrency_one_settles_in_order_witness :
  let tasks := [resolves 50 1; resolves 30 2; resolves 10 3] in
  let options := AsyncBatchOptions.mk (Some 1%Z) None None in
  TS.concurrency options = 1%Z ∧
  settles (trace (TS.asyncBatch showZ tasks options 4).2) =
  dispatches (trace (TS.asyncBatch showZ tasks options 4).2).
Proof.
  split; [reflexivity|].
  apply (concurrency_one_settles_in_order showZ
           [resolves 50 1; resolves 30 2; resolves 10 3]
           (AsyncBatchOptions.mk (Some 1%Z) None None) 4).
  reflexivity.
Defined.

Lemma missing_task_is_reported_at_its_index_witness :
  let tasks := [resolves 0 1; None] in
  let rs := [Some (Plain 1%Z);
             Some (ErrorObj (mkError "Task at index 1 is undefined"))] in
  ((TS.asyncBatch showZ tasks no_options 3).1 = Returned rs ∧ tasks !! 1 = Some None) ∧
  rs !! 1 = Some (Some (ErrorObj (mkError ("Task at index " +:+ pretty 1 +:+ " is undefined")))).
Proof.
  split; [split; [vm_compute; reflexivity|reflexivity]|].
  apply (missing_task_is_reported_at_its_index showZ [resolves 0 1; None] no_options 3).
  - vm_compute; reflexivity.
  - reflexivity.
Defined.
